(** * Patch derivation of the Spark pod admission webhook

    A shallow embedding of [pkg/webhook/patch.go]: the functions that compute
    the RFC 6902 "add" operations for a Spark driver or executor pod, and the
    properties of the operation sequence they return.

    Strings are Go strings: sequences of bytes ([string] is a list of 8-bit
    [ascii]), so [String.length] is Go's [len] and [String.substring] is a Go
    slice expression.  The pod is reached through a pointer in the source; it
    is the state of a small state-and-panic monad here, so that what the code
    does to the pod document is part of the model. *)

From stdpp Require Import gmap strings list fin_maps pretty.

Open Scope string_scope.
Open Scope list_scope.
Open Scope nat_scope.

(** ** Kubernetes and operator types

    Only the fields that [patch.go] reads or writes are kept, with a few
    neighbours; every struct lives in a module of its own, so that
    [v.Name] of the source reads [Volume.Name v]. *)

Module OwnerReference.
Record t := mk {
  APIVersion : string;
  Kind : string;
  Name : string;
  UID : string;
  Controller : option bool }.
End OwnerReference.

Module ConfigMapVolumeSource.
(** [LocalObjectReference] is embedded in the source; its only field is [Name]. *)
Record t := mk { Name : string }.
End ConfigMapVolumeSource.

Module VolumeSource.
Record t := mk {
  HostPath : option string;
  EmptyDir : option string;
  ConfigMap : option ConfigMapVolumeSource.t }.
End VolumeSource.

Module Volume.
Record t := mk {
  Name : string;
  VolumeSource : VolumeSource.t }.
End Volume.

Module VolumeMount.
Record t := mk {
  Name : string;
  ReadOnly : bool;
  MountPath : string;
  SubPath : string }.
End VolumeMount.

Module EnvVar.
Record t := mk {
  Name : string;
  Value : string }.
End EnvVar.

Module Toleration.
Record t := mk {
  Key : string;
  Operator : string;
  Value : string;
  Effect : string;
  TolerationSeconds : option Z }.
End Toleration.

Module Affinity.
(** The three scheduling terms are opaque to the webhook. *)
Record t := mk {
  NodeAffinity : option string;
  PodAffinity : option string;
  PodAntiAffinity : option string }.
End Affinity.

Module PodSecurityContext.
Record t := mk {
  RunAsUser : option Z;
  RunAsNonRoot : option bool;
  FSGroup : option Z }.
End PodSecurityContext.

Module Container.
Record t := mk {
  Name : string;
  Env : list EnvVar.t;
  VolumeMounts : list VolumeMount.t }.
End Container.

Module PodSpec.
Record t := mk {
  Volumes : list Volume.t;
  Containers : list Container.t;
  Affinity : option Affinity.t;
  SecurityContext : option PodSecurityContext.t;
  Tolerations : list Toleration.t }.
End PodSpec.

Module ObjectMeta.
Record t := mk {
  Name : string;
  UID : string;
  Labels : gmap string string;
  OwnerReferences : list OwnerReference.t }.
End ObjectMeta.

Module Pod.
(** [ObjectMeta] is embedded in the source: [pod.OwnerReferences] is
    [ObjectMeta.OwnerReferences (Pod.ObjectMeta pod)]. *)
Record t := mk {
  ObjectMeta : ObjectMeta.t;
  Spec : PodSpec.t }.
End Pod.

Module NamePath.
Record t := mk {
  Name : string;
  Path : string }.
End NamePath.

Module SparkPodSpec.
(** Embedded in both [DriverSpec] and [ExecutorSpec]; the field name
    [SecurityContenxt] is the source's spelling. *)
Record t := mk {
  ConfigMaps : list NamePath.t;
  VolumeMounts : list VolumeMount.t;
  Affinity : option Affinity.t;
  Tolerations : list Toleration.t;
  SecurityContenxt : option PodSecurityContext.t }.
End SparkPodSpec.

Module SparkApplicationSpec.
Record t := mk {
  SparkConfigMap : option string;
  HadoopConfigMap : option string;
  Volumes : list Volume.t;
  Driver : SparkPodSpec.t;
  Executor : SparkPodSpec.t }.
End SparkApplicationSpec.

Module SparkApplication.
Record t := mk {
  ObjectMeta : ObjectMeta.t;
  Spec : SparkApplicationSpec.t }.
End SparkApplication.

(** ** Patch operations *)

(** The dynamic value stored in [Value interface{}]: the source stores either
    one element or a one-element slice of five element types, an affinity or
    a security context. *)
Inductive dyn : Type :=
  | VOwnerReference (o : OwnerReference.t)
  | VOwnerReferences (l : list OwnerReference.t)
  | VVolume (v : Volume.t)
  | VVolumes (l : list Volume.t)
  | VVolumeMount (m : VolumeMount.t)
  | VVolumeMounts (l : list VolumeMount.t)
  | VEnvVar (e : EnvVar.t)
  | VEnvVars (l : list EnvVar.t)
  | VToleration (t : Toleration.t)
  | VTolerations (l : list Toleration.t)
  | VAffinity (a : Affinity.t)
  | VPodSecurityContext (s : PodSecurityContext.t).

(** [patchOperation] represents a RFC6902 JSON patch operation. *)
Record patchOperation := mkOp {
  Op : string;
  Path : string;
  Value : dyn }.

Definition sparkDriverContainerName : string := "spark-kubernetes-driver".
Definition sparkExecutorContainerName : string := "executor".
Definition maxNameLength : nat := 63.

(** ** What [patch.go] imports from the rest of the operator

    [util.IsDriverPod], [util.IsExecutorPod] and [util.GetOwnerReference]
    are in [pkg/util], the six names and directories in [pkg/config]; both
    packages are outside this file and are taken as parameters. *)

Class Util := {
  IsDriverPod : Pod.t → bool;
  IsExecutorPod : Pod.t → bool;
  GetOwnerReference : SparkApplication.t → OwnerReference.t }.

Class Config := {
  SparkConfigMapVolumeName : string;
  DefaultSparkConfDir : string;
  SparkConfDirEnvVar : string;
  HadoopConfigMapVolumeName : string;
  DefaultHadoopConfDir : string;
  HadoopConfDirEnvVar : string }.

(** ** The monad: a pod behind a pointer, and Go's run-time panics *)

Inductive runtimeError : Type :=
  | IndexOutOfRange (index len : nat).

Inductive result (A : Type) : Type :=
  | Ok (a : A)
  | Panic (e : runtimeError).
Arguments Ok {A} a.
Arguments Panic {A} e.

(** A computation starts from the pod the pointer refers to and ends with
    the pod it refers to afterwards, together with a value or a panic. *)
Definition M (A : Type) : Type := Pod.t → Pod.t * result A.

#[global] Instance M_ret : MRet M := λ A a s, (s, Ok a).

#[global] Instance M_bind : MBind M := λ A B f m s,
  match m s with
  | (s', Ok a) => f a s'
  | (s', Panic e) => (s', Panic e)
  end.

(** Dereference the pod pointer. *)
Definition getPod : M Pod.t := λ s, (s, Ok s).

(** An assignment through the pod pointer.  Nothing in [patch.go] makes one;
    it is here to say what one would be. *)
Definition setPod (pod : Pod.t) : M unit := λ _, (pod, Ok ()).

Definition panic {A : Type} (e : runtimeError) : M A := λ s, (s, Panic e).

(** [for _, x := range l { s = body(x, s) }] *)
Fixpoint forRange {A S : Type} (l : list A) (body : A → S → M S) (s : S) : M S :=
  match l with
  | [] => mret s
  | x :: l' => s' ← body x s; forRange l' body s'
  end.

(** The pod a computation leaves behind, and what it returns. *)
Definition exec {A : Type} (m : M A) (pod : Pod.t) : Pod.t := (m pod).1.
Definition eval {A : Type} (m : M A) (pod : Pod.t) : result A := (m pod).2.

(** ** The functions of [patch.go] *)

(** The scan both [addVolumeMount] and [addEnvironmentVariable] open with:
    [i] advances over the containers until one is named as the driver or the
    executor container, and is left at [len(pod.Spec.Containers)] when none is. *)
Fixpoint scanContainers (cs : list Container.t) (i : nat) : nat :=
  match cs with
  | [] => i
  | c :: cs' =>
      if String.eqb (Container.Name c) sparkDriverContainerName
         || String.eqb (Container.Name c) sparkExecutorContainerName
      then i
      else scanContainers cs' (S i)
  end.

(** [l[i]]: an index expression panics out of range. *)
Definition index {A : Type} (l : list A) (i : nat) : M A :=
  match l !! i with
  | Some x => mret x
  | None => panic (IndexOutOfRange i (length l))
  end.

Section Patch.
Context `{!Util, !Config}.

Definition addOwnerReference (app : SparkApplication.t) : M patchOperation :=
  pod ← getPod;
  let ownerReference := GetOwnerReference app in
  let path := "/metadata/ownerReferences" in
  if (length (ObjectMeta.OwnerReferences (Pod.ObjectMeta pod)) =? 0)%nat
  then mret (mkOp "add" path (VOwnerReferences [ownerReference]))
  else mret (mkOp "add" (path +:+ "/-") (VOwnerReference ownerReference)).

Definition addVolume (volume : Volume.t) : M patchOperation :=
  pod ← getPod;
  let path := "/spec/volumes" in
  if (length (PodSpec.Volumes (Pod.Spec pod)) =? 0)%nat
  then mret (mkOp "add" path (VVolumes [volume]))
  else mret (mkOp "add" (path +:+ "/-") (VVolume volume)).

Definition addVolumeMount (mount : VolumeMount.t) : M patchOperation :=
  pod ← getPod;
  let i := scanContainers (PodSpec.Containers (Pod.Spec pod)) 0 in
  let path := "/spec/containers/" +:+ (pretty i +:+ "/volumeMounts") in
  c ← index (PodSpec.Containers (Pod.Spec pod)) i;
  if (length (Container.VolumeMounts c) =? 0)%nat
  then mret (mkOp "add" path (VVolumeMounts [mount]))
  else mret (mkOp "add" (path +:+ "/-") (VVolumeMount mount)).

Definition addEnvironmentVariable (envName envValue : string) : M patchOperation :=
  pod ← getPod;
  let i := scanContainers (PodSpec.Containers (Pod.Spec pod)) 0 in
  let path := "/spec/containers/" +:+ (pretty i +:+ "/env") in
  c ← index (PodSpec.Containers (Pod.Spec pod)) i;
  if (length (Container.Env c) =? 0)%nat
  then mret (mkOp "add" path (VEnvVars [EnvVar.mk envName envValue]))
  else mret (mkOp "add" (path +:+ "/-") (VEnvVar (EnvVar.mk envName envValue))).

Definition addConfigMapVolume (configMapName configMapVolumeName : string)
    : M patchOperation :=
  let volume :=
    Volume.mk configMapVolumeName
      (VolumeSource.mk None None (Some (ConfigMapVolumeSource.mk configMapName))) in
  addVolume volume.

Definition addConfigMapVolumeMount (configMapVolumeName mountPath : string)
    : M patchOperation :=
  let mount := VolumeMount.mk configMapVolumeName true mountPath "" in
  addVolumeMount mount.

Definition addVolumes (app : SparkApplication.t) : M (list patchOperation) :=
  pod ← getPod;
  let volumes := SparkApplicationSpec.Volumes (SparkApplication.Spec app) in
  let volumeMap : gmap string Volume.t :=
    foldl (λ vm v, <[Volume.Name v := v]> vm) ∅ volumes in
  let volumeMounts :=
    if IsDriverPod pod
    then SparkPodSpec.VolumeMounts (SparkApplicationSpec.Driver (SparkApplication.Spec app))
    else if IsExecutorPod pod
    then SparkPodSpec.VolumeMounts (SparkApplicationSpec.Executor (SparkApplication.Spec app))
    else [] in
  forRange volumeMounts (λ m ops,
    match volumeMap !! VolumeMount.Name m with
    | Some v =>
        op ← addVolume v;
        let ops := ops ++ [op] in
        op ← addVolumeMount m;
        mret (ops ++ [op])
    | None => mret ops
    end) [].

Definition addSparkConfigMap (app : SparkApplication.t) : M (list patchOperation) :=
  let patchOps := [] in
  match SparkApplicationSpec.SparkConfigMap (SparkApplication.Spec app) with
  | Some sparkConfigMapName =>
      op ← addConfigMapVolume sparkConfigMapName SparkConfigMapVolumeName;
      let patchOps := patchOps ++ [op] in
      op ← addConfigMapVolumeMount SparkConfigMapVolumeName DefaultSparkConfDir;
      let patchOps := patchOps ++ [op] in
      op ← addEnvironmentVariable SparkConfDirEnvVar DefaultSparkConfDir;
      mret (patchOps ++ [op])
  | None => mret patchOps
  end.

Definition addHadoopConfigMap (app : SparkApplication.t) : M (list patchOperation) :=
  let patchOps := [] in
  match SparkApplicationSpec.HadoopConfigMap (SparkApplication.Spec app) with
  | Some hadoopConfigMapName =>
      op ← addConfigMapVolume hadoopConfigMapName HadoopConfigMapVolumeName;
      let patchOps := patchOps ++ [op] in
      op ← addConfigMapVolumeMount HadoopConfigMapVolumeName DefaultHadoopConfDir;
      let patchOps := patchOps ++ [op] in
      op ← addEnvironmentVariable HadoopConfDirEnvVar DefaultHadoopConfDir;
      mret (patchOps ++ [op])
  | None => mret patchOps
  end.

(** The [glog] line that reports a truncated name is left out: it writes to
    the log and changes neither the name nor the operations. *)
Definition addGeneralConfigMaps (app : SparkApplication.t) : M (list patchOperation) :=
  pod ← getPod;
  let configMaps :=
    if IsDriverPod pod
    then SparkPodSpec.ConfigMaps (SparkApplicationSpec.Driver (SparkApplication.Spec app))
    else if IsExecutorPod pod
    then SparkPodSpec.ConfigMaps (SparkApplicationSpec.Executor (SparkApplication.Spec app))
    else [] in
  forRange configMaps (λ namePath patchOps,
    let volumeName := NamePath.Name namePath +:+ "-vol" in
    let volumeName :=
      if (maxNameLength <? String.length volumeName)%nat
      then String.substring 0 maxNameLength volumeName
      else volumeName in
    op ← addConfigMapVolume (NamePath.Name namePath) volumeName;
    let patchOps := patchOps ++ [op] in
    op ← addConfigMapVolumeMount volumeName (NamePath.Path namePath);
    mret (patchOps ++ [op])) [].

Definition addAffinity (app : SparkApplication.t) : M (option patchOperation) :=
  pod ← getPod;
  let affinity :=
    if IsDriverPod pod
    then SparkPodSpec.Affinity (SparkApplicationSpec.Driver (SparkApplication.Spec app))
    else if IsExecutorPod pod
    then SparkPodSpec.Affinity (SparkApplicationSpec.Executor (SparkApplication.Spec app))
    else None in
  match affinity with
  | None => mret None
  | Some a => mret (Some (mkOp "add" "/spec/affinity" (VAffinity a)))
  end.

Definition addToleration (toleration : Toleration.t) : M patchOperation :=
  pod ← getPod;
  let path := "/spec/tolerations" in
  if (length (PodSpec.Tolerations (Pod.Spec pod)) =? 0)%nat
  then mret (mkOp "add" path (VTolerations [toleration]))
  else mret (mkOp "add" (path +:+ "/-") (VToleration toleration)).

Definition addTolerations (app : SparkApplication.t) : M (list patchOperation) :=
  pod ← getPod;
  let tolerations :=
    if IsDriverPod pod
    then SparkPodSpec.Tolerations (SparkApplicationSpec.Driver (SparkApplication.Spec app))
    else if IsExecutorPod pod
    then SparkPodSpec.Tolerations (SparkApplicationSpec.Executor (SparkApplication.Spec app))
    else [] in
  forRange tolerations (λ v ops,
    op ← addToleration v;
    mret (ops ++ [op])) [].

Definition addSecurityContext (app : SparkApplication.t) : M (option patchOperation) :=
  pod ← getPod;
  let secContext :=
    if IsDriverPod pod
    then SparkPodSpec.SecurityContenxt (SparkApplicationSpec.Driver (SparkApplication.Spec app))
    else if IsExecutorPod pod
    then SparkPodSpec.SecurityContenxt (SparkApplicationSpec.Executor (SparkApplication.Spec app))
    else None in
  match secContext with
  | None => mret None
  | Some s => mret (Some (mkOp "add" "/spec/securityContext" (VPodSecurityContext s)))
  end.

Definition patchSparkPod (app : SparkApplication.t) : M (list patchOperation) :=
  let patchOps := [] in
  pod ← getPod;
  patchOps ←
    (if IsDriverPod pod
     then op ← addOwnerReference app; mret (patchOps ++ [op])
     else mret patchOps);
  ops ← addVolumes app;
  let patchOps := patchOps ++ ops in
  ops ← addGeneralConfigMaps app;
  let patchOps := patchOps ++ ops in
  ops ← addSparkConfigMap app;
  let patchOps := patchOps ++ ops in
  ops ← addHadoopConfigMap app;
  let patchOps := patchOps ++ ops in
  ops ← addTolerations app;
  let patchOps := patchOps ++ ops in
  pod ← getPod;
  patchOps ←
    (match PodSpec.Affinity (Pod.Spec pod) with
     | None =>
         op ← addAffinity app;
         match op with
         | Some op => mret (patchOps ++ [op])
         | None => mret patchOps
         end
     | Some _ => mret patchOps
     end);
  pod ← getPod;
  patchOps ←
    (match PodSpec.SecurityContext (Pod.Spec pod) with
     | None =>
         op ← addSecurityContext app;
         match op with
         | Some op => mret (patchOps ++ [op])
         | None => mret patchOps
         end
     | Some _ => mret patchOps
     end);
  mret patchOps.

End Patch.

(** ** Notions the properties are stated with *)

(** A computation is read-only when it leaves the pod as it found it,
    whether it returns or panics. *)
Definition readonly {A : Type} (m : M A) : Prop := ∀ pod, exec m pod = pod.

(** The result of a loop whose body is run against a fixed pod. *)
Fixpoint foldResult {A S : Type} (l : list A) (step : A → S → result S) (s : S)
    : result S :=
  match l with
  | [] => Ok s
  | x :: l' =>
      match step x s with
      | Ok s' => foldResult l' step s'
      | Panic e => Panic e
      end
  end.

(** The groups of operations a loop appends, one group per element. *)
Fixpoint mapResult {A B : Type} (g : A → result B) (l : list A) : result (list B) :=
  match l with
  | [] => Ok []
  | x :: l' =>
      match g x with
      | Ok y =>
          match mapResult g l' with
          | Ok ys => Ok (y :: ys)
          | Panic e => Panic e
          end
      | Panic e => Panic e
      end
  end.

(** A container carries one of the two well-known names. *)
Definition namedSpark (c : Container.t) : Prop :=
  Container.Name c = sparkDriverContainerName
  ∨ Container.Name c = sparkExecutorContainerName.

(** Container [c] at index [i] is the first one so named. *)
Definition resolved (pod : Pod.t) (i : nat) (c : Container.t) : Prop :=
  PodSpec.Containers (Pod.Spec pod) !! i = Some c
  ∧ namedSpark c
  ∧ ∀ j c', j < i → PodSpec.Containers (Pod.Spec pod) !! j = Some c' → ¬ namedSpark c'.

(** How a single-element add must look for an array that has [len] elements
    in the pod: the bare field with a one-element array when the array is
    empty, the append position with the bare element otherwise. *)
Definition appendPolicy (len : nat) (field : string) (element array : dyn)
    (op : patchOperation) : Prop :=
  Op op = "add"
  ∧ (len = 0 → Path op = field ∧ Value op = array)
  ∧ (1 ≤ len → Path op = field +:+ "/-" ∧ Value op = element).

(** The volume name derived from a config-map name: the name followed by
    ["-vol"], cut to its first 63 bytes when that is longer. *)
Definition derivedVolumeName (name volName : string) : Prop :=
  (63 < String.length name + 4 →
     String.length volName = 63 ∧ ∃ rest, name +:+ "-vol" = volName +:+ rest)
  ∧ (String.length name + 4 ≤ 63 → volName = name +:+ "-vol").

Definition ownerReferenceOp (op : patchOperation) : bool :=
  String.eqb (Path op) "/metadata/ownerReferences"
  || String.eqb (Path op) "/metadata/ownerReferences/-".

Definition affinityOp (op : patchOperation) : bool :=
  String.eqb (Path op) "/spec/affinity".

Definition securityContextOp (op : patchOperation) : bool :=
  String.eqb (Path op) "/spec/securityContext".

(** An operation on one of the other fields: a volume, a mount, an
    environment variable or a toleration. *)
Definition elementOp (op : patchOperation) : Prop :=
  ownerReferenceOp op = false ∧ affinityOp op = false ∧ securityContextOp op = false.

(** Sequencing of results: a panic ends the sequence. *)
Definition bindResult {A B : Type} (r : result A) (f : A → result B) : result B :=
  match r with
  | Ok a => f a
  | Panic e => Panic e
  end.

(** A volume of the descriptor carries the name of the mount point. *)
Definition matched (app : SparkApplication.t) (m : VolumeMount.t) : bool :=
  existsb (λ v, String.eqb (Volume.Name v) (VolumeMount.Name m))
    (SparkApplicationSpec.Volumes (SparkApplication.Spec app)).

(** The paths patch derivation may address in a pod: the five arrays, bare
    or at their append position, with the container index the scan ends on,
    and the two optional fields. *)
Definition knownPaths (pod : Pod.t) : list string :=
  let i := scanContainers (PodSpec.Containers (Pod.Spec pod)) 0 in
  [ "/metadata/ownerReferences"; "/metadata/ownerReferences" +:+ "/-";
    "/spec/volumes"; "/spec/volumes" +:+ "/-";
    "/spec/containers/" +:+ (pretty i +:+ "/volumeMounts");
    ("/spec/containers/" +:+ (pretty i +:+ "/volumeMounts")) +:+ "/-";
    "/spec/containers/" +:+ (pretty i +:+ "/env");
    ("/spec/containers/" +:+ (pretty i +:+ "/env")) +:+ "/-";
    "/spec/tolerations"; "/spec/tolerations" +:+ "/-";
    "/spec/affinity"; "/spec/securityContext" ].

(** The descriptor with the driver's, respectively the executor's, part replaced. *)
Definition withDriver (app : SparkApplication.t) (d : SparkPodSpec.t)
    : SparkApplication.t :=
  SparkApplication.mk (SparkApplication.ObjectMeta app)
    (SparkApplicationSpec.mk
       (SparkApplicationSpec.SparkConfigMap (SparkApplication.Spec app))
       (SparkApplicationSpec.HadoopConfigMap (SparkApplication.Spec app))
       (SparkApplicationSpec.Volumes (SparkApplication.Spec app))
       d
       (SparkApplicationSpec.Executor (SparkApplication.Spec app))).

Definition withExecutor (app : SparkApplication.t) (e : SparkPodSpec.t)
    : SparkApplication.t :=
  SparkApplication.mk (SparkApplication.ObjectMeta app)
    (SparkApplicationSpec.mk
       (SparkApplicationSpec.SparkConfigMap (SparkApplication.Spec app))
       (SparkApplicationSpec.HadoopConfigMap (SparkApplication.Spec app))
       (SparkApplicationSpec.Volumes (SparkApplication.Spec app))
       (SparkApplicationSpec.Driver (SparkApplication.Spec app))
       e).

(** The volume of the list a name last refers to: no later one carries it. *)
Definition lastNamed (vols : list Volume.t) (k : string) (v : Volume.t) : Prop :=
  ∃ before after,
    vols = before ++ v :: after
    ∧ Volume.Name v = k
    ∧ ∀ w, w ∈ after → Volume.Name w ≠ k.

Section Notions.
Context `{!Util, !Config}.

(** What the descriptor declares for the pod's role: the driver's part for a
    driver pod, the executor's part for an executor pod, nothing otherwise. *)
Definition roleSpec (pod : Pod.t) (app : SparkApplication.t) : option SparkPodSpec.t :=
  if IsDriverPod pod
  then Some (SparkApplicationSpec.Driver (SparkApplication.Spec app))
  else if IsExecutorPod pod
  then Some (SparkApplicationSpec.Executor (SparkApplication.Spec app))
  else None.

Definition roleVolumeMounts pod app : list VolumeMount.t :=
  from_option SparkPodSpec.VolumeMounts [] (roleSpec pod app).
Definition roleConfigMaps pod app : list NamePath.t :=
  from_option SparkPodSpec.ConfigMaps [] (roleSpec pod app).
Definition roleTolerations pod app : list Toleration.t :=
  from_option SparkPodSpec.Tolerations [] (roleSpec pod app).
Definition roleAffinity pod app : option Affinity.t :=
  roleSpec pod app ≫= SparkPodSpec.Affinity.
Definition roleSecurityContext pod app : option PodSecurityContext.t :=
  roleSpec pod app ≫= SparkPodSpec.SecurityContenxt.

(** The lookup table [addVolumes] builds from the declared volumes. *)
Definition volumeMap (app : SparkApplication.t) : gmap string Volume.t :=
  foldl (λ vm v, <[Volume.Name v := v]> vm) ∅
    (SparkApplicationSpec.Volumes (SparkApplication.Spec app)).

(** One turn of the loop of [addVolumes]. *)
Definition mountPair (app : SparkApplication.t) (pod : Pod.t) (m : VolumeMount.t)
    : result (list patchOperation) :=
  match volumeMap app !! VolumeMount.Name m with
  | Some v =>
      match eval (addVolume v) pod, eval (addVolumeMount m) pod with
      | Ok vop, Ok mop => Ok [vop; mop]
      | Panic e, _ | _, Panic e => Panic e
      end
  | None => Ok []
  end.

(** One turn of the loop of [addGeneralConfigMaps]. *)
Definition configMapPair (pod : Pod.t) (namePath : NamePath.t)
    : result (list patchOperation) :=
  let volumeName := NamePath.Name namePath +:+ "-vol" in
  let volumeName :=
    if (maxNameLength <? String.length volumeName)%nat
    then String.substring 0 maxNameLength volumeName
    else volumeName in
  match eval (addConfigMapVolume (NamePath.Name namePath) volumeName) pod,
        eval (addConfigMapVolumeMount volumeName (NamePath.Path namePath)) pod with
  | Ok vop, Ok mop => Ok [vop; mop]
  | Panic e, _ | _, Panic e => Panic e
  end.

(** The three operations a built-in config map contributes. *)
Definition configMapTriple (pod : Pod.t) (configMapName volumeName dir envName : string)
    : result (list patchOperation) :=
  match eval (addConfigMapVolume configMapName volumeName) pod,
        eval (addConfigMapVolumeMount volumeName dir) pod,
        eval (addEnvironmentVariable envName dir) pod with
  | Ok vop, Ok mop, Ok eop => Ok [vop; mop; eop]
  | Panic e, _, _ | _, Panic e, _ | _, _, Panic e => Panic e
  end.

(** The ownership operation: driver pods only. *)
Definition ownershipPart (app : SparkApplication.t) (pod : Pod.t)
    : result (list patchOperation) :=
  if IsDriverPod pod
  then match eval (addOwnerReference app) pod with
       | Ok op => Ok [op]
       | Panic e => Panic e
       end
  else Ok [].

(** The affinity operation, asked for only when the pod has no affinity. *)
Definition affinityPart (app : SparkApplication.t) (pod : Pod.t)
    : result (list patchOperation) :=
  match PodSpec.Affinity (Pod.Spec pod) with
  | None =>
      match eval (addAffinity app) pod with
      | Ok op => Ok (option_list op)
      | Panic e => Panic e
      end
  | Some _ => Ok []
  end.

(** The security-context operation, asked for only when the pod has none. *)
Definition securityContextPart (app : SparkApplication.t) (pod : Pod.t)
    : result (list patchOperation) :=
  match PodSpec.SecurityContext (Pod.Spec pod) with
  | None =>
      match eval (addSecurityContext app) pod with
      | Ok op => Ok (option_list op)
      | Panic e => Panic e
      end
  | Some _ => Ok []
  end.

(** What one declared mount point contributes to the output of [addVolumes]:
    nothing when no declared volume has its name; otherwise the add of one
    such volume followed by the add of the mount. *)
Definition mountContribution (app : SparkApplication.t) (pod : Pod.t)
    (m : VolumeMount.t) (group : list patchOperation) : Prop :=
  ((∀ v, v ∈ SparkApplicationSpec.Volumes (SparkApplication.Spec app) →
         Volume.Name v ≠ VolumeMount.Name m)
   ∧ group = [])
  ∨ (∃ v vop mop,
       v ∈ SparkApplicationSpec.Volumes (SparkApplication.Spec app)
       ∧ Volume.Name v = VolumeMount.Name m
       ∧ eval (addVolume v) pod = Ok vop
       ∧ eval (addVolumeMount m) pod = Ok mop
       ∧ group = [vop; mop]).

(** What one general config reference contributes: the add of a config-map
    volume and the add of its read-only mount, both under the derived name. *)
Definition configMapContribution (pod : Pod.t) (np : NamePath.t)
    (group : list patchOperation) : Prop :=
  ∃ volName vop mop,
    derivedVolumeName (NamePath.Name np) volName
    ∧ eval (addVolume
              (Volume.mk volName
                 (VolumeSource.mk None None
                    (Some (ConfigMapVolumeSource.mk (NamePath.Name np)))))) pod
      = Ok vop
    ∧ eval (addVolumeMount (VolumeMount.mk volName true (NamePath.Path np) "")) pod
      = Ok mop
    ∧ group = [vop; mop].

(** The descriptor asks for something that is attached to a container: a
    mount point with a declared volume, a general config map for the pod's
    role, or one of the two built-in config maps. *)
Definition touchesContainer (pod : Pod.t) (app : SparkApplication.t) : bool :=
  existsb (matched app) (roleVolumeMounts pod app)
  || match roleConfigMaps pod app with [] => false | _ :: _ => true end
  || match SparkApplicationSpec.SparkConfigMap (SparkApplication.Spec app) with
     | Some _ => true
     | None => false
     end
  || match SparkApplicationSpec.HadoopConfigMap (SparkApplication.Spec app) with
     | Some _ => true
     | None => false
     end.

(** The number of operations patch derivation returns. *)
Definition operationCount (pod : Pod.t) (app : SparkApplication.t) : nat :=
  (if IsDriverPod pod then 1 else 0)
  + 2 * length (List.filter (matched app) (roleVolumeMounts pod app))
  + 2 * length (roleConfigMaps pod app)
  + match SparkApplicationSpec.SparkConfigMap (SparkApplication.Spec app) with
    | Some _ => 3
    | None => 0
    end
  + match SparkApplicationSpec.HadoopConfigMap (SparkApplication.Spec app) with
    | Some _ => 3
    | None => 0
    end
  + length (roleTolerations pod app)
  + match PodSpec.Affinity (Pod.Spec pod), roleAffinity pod app with
    | None, Some _ => 1
    | _, _ => 0
    end
  + match PodSpec.SecurityContext (Pod.Spec pod), roleSecurityContext pod app with
    | None, Some _ => 1
    | _, _ => 0
    end.

(** The three operations of a built-in config map: a volume backed by the
    config map, its read-only mount at [dir] and the variable [envName] set to
    [dir], the last two on the same container [i]. *)
Definition builtinConfigMapOps (pod : Pod.t) (configMapName volumeName dir envName : string)
    (ops : list patchOperation) : Prop :=
  ∃ i c vop mop eop,
    ops = [vop; mop; eop]
    ∧ resolved pod i c
    ∧ appendPolicy (length (PodSpec.Volumes (Pod.Spec pod))) "/spec/volumes"
        (VVolume (Volume.mk volumeName
           (VolumeSource.mk None None (Some (ConfigMapVolumeSource.mk configMapName)))))
        (VVolumes [Volume.mk volumeName
           (VolumeSource.mk None None (Some (ConfigMapVolumeSource.mk configMapName)))])
        vop
    ∧ appendPolicy (length (Container.VolumeMounts c))
        ("/spec/containers/" +:+ (pretty i +:+ "/volumeMounts"))
        (VVolumeMount (VolumeMount.mk volumeName true dir ""))
        (VVolumeMounts [VolumeMount.mk volumeName true dir ""])
        mop
    ∧ appendPolicy (length (Container.Env c))
        ("/spec/containers/" +:+ (pretty i +:+ "/env"))
        (VEnvVar (EnvVar.mk envName dir))
        (VEnvVars [EnvVar.mk envName dir])
        eop.

End Notions.

(** Case analysis on the role of the pod. *)
Ltac role_cases :=
  unfold roleVolumeMounts, roleConfigMaps, roleTolerations, roleAffinity,
    roleSecurityContext, roleSpec;
  destruct (IsDriverPod _); [|destruct (IsExecutorPod _)]; reflexivity.

(** ** A sample environment

    One instance of the two parameter classes, used in the examples below:
    the role is read from the pod's [spark-role] label. *)

Definition sampleUtil : Util := {|
  IsDriverPod pod :=
    bool_decide (ObjectMeta.Labels (Pod.ObjectMeta pod) !! "spark-role" = Some "driver");
  IsExecutorPod pod :=
    bool_decide (ObjectMeta.Labels (Pod.ObjectMeta pod) !! "spark-role" = Some "executor");
  GetOwnerReference app :=
    OwnerReference.mk "sparkoperator.k8s.io/v1beta1" "SparkApplication"
      (ObjectMeta.Name (SparkApplication.ObjectMeta app))
      (ObjectMeta.UID (SparkApplication.ObjectMeta app))
      (Some true) |}.

Definition sampleConfig : Config := {|
  SparkConfigMapVolumeName := "spark-configmap-volume";
  DefaultSparkConfDir := "/etc/spark/conf";
  SparkConfDirEnvVar := "SPARK_CONF_DIR";
  HadoopConfigMapVolumeName := "hadoop-configmap-volume";
  DefaultHadoopConfDir := "/etc/hadoop/conf";
  HadoopConfDirEnvVar := "HADOOP_CONF_DIR" |}.

(** ** Concrete pods and descriptors *)

Definition podWith (role : option string) (volumes : list Volume.t)
    (containers : list Container.t) (affinity : option Affinity.t)
    (tolerations : list Toleration.t) : Pod.t :=
  Pod.mk
    (ObjectMeta.mk "spark-pi" "uid-pod"
       (from_option (λ r, {["spark-role" := r]}) ∅ role) [])
    (PodSpec.mk volumes containers affinity None tolerations).

Definition emptyRole : SparkPodSpec.t := SparkPodSpec.mk [] [] None [] None.

Definition appWith (sparkConfigMap : option string) (volumes : list Volume.t)
    (driver executor : SparkPodSpec.t) : SparkApplication.t :=
  SparkApplication.mk (ObjectMeta.mk "spark-pi-app" "uid-app" ∅ [])
    (SparkApplicationSpec.mk sparkConfigMap None volumes driver executor).

(** A fresh driver pod: its container has no mounts and no environment. *)
Definition driverPod : Pod.t :=
  podWith (Some "driver") [] [Container.mk "spark-kubernetes-driver" [] []] None [].

(** An executor pod that has a volume, a mount and an environment variable. *)
Definition executorPod : Pod.t :=
  podWith (Some "executor")
    [Volume.mk "spark-local-dir" (VolumeSource.mk None (Some "") None)]
    [Container.mk "executor"
       [EnvVar.mk "SPARK_USER" "spark"]
       [VolumeMount.mk "spark-local-dir" false "/var/data" ""]]
    None [].

(** A driver pod whose only container is a sidecar. *)
Definition sidecarPod : Pod.t :=
  podWith (Some "driver") [] [Container.mk "istio-proxy" [] []] None [].

(** A pod without the role label. *)
Definition unlabelledPod : Pod.t :=
  podWith None [] [Container.mk "spark-kubernetes-driver" [] []] None [].

Definition someAffinity : Affinity.t := Affinity.mk (Some "zone-a") None None.

(** A driver pod that is already given an affinity. *)
Definition pinnedPod : Pod.t :=
  podWith (Some "driver") [] [Container.mk "spark-kubernetes-driver" [] []]
    (Some someAffinity) [].

Definition myConfigApp : SparkApplication.t :=
  appWith (Some "my-config") [] emptyRole emptyRole.

Definition bareApp : SparkApplication.t := appWith None [] emptyRole emptyRole.

Definition affinityApp : SparkApplication.t :=
  appWith None []
    (SparkPodSpec.mk [] [] (Some (Affinity.mk None (Some "near-cache") None)) [] None)
    emptyRole.

Definition dataVolume : Volume.t :=
  Volume.mk "data" (VolumeSource.mk (Some "/mnt/data") None None).

(** Two mounts declared for the driver; only ["data"] names a declared volume. *)
Definition mountApp : SparkApplication.t :=
  appWith None [dataVolume]
    (SparkPodSpec.mk []
       [VolumeMount.mk "scratch" false "/scratch" "";
        VolumeMount.mk "data" false "/data" ""]
       None [] None)
    emptyRole.

(** A config-map name of 70 bytes. *)
Definition longName : string :=
  "configuration-for-the-nightly-aggregation-job-of-the-reporting-cluster".

Definition configMapsRole : SparkPodSpec.t :=
  SparkPodSpec.mk [NamePath.mk "cm1" "/etc/cm1"; NamePath.mk longName "/etc/long"]
    [] None [] None.

Definition configMapsApp : SparkApplication.t :=
  appWith None [] configMapsRole configMapsRole.

Definition gpuToleration : Toleration.t :=
  Toleration.mk "gpu" "Exists" "" "NoSchedule" None.
Definition spotToleration : Toleration.t :=
  Toleration.mk "spot" "Equal" "true" "NoExecute" (Some 300%Z).

(** A descriptor that declares everything for both roles. *)
Definition richRole : SparkPodSpec.t :=
  SparkPodSpec.mk [NamePath.mk "cm1" "/etc/cm1"]
    [VolumeMount.mk "data" false "/data" ""]
    (Some someAffinity) [gpuToleration; spotToleration]
    (Some (PodSecurityContext.mk (Some 185%Z) (Some true) None)).

Definition richApp : SparkApplication.t :=
  appWith (Some "my-config") [dataVolume] richRole richRole.

Definition tolerationsApp : SparkApplication.t :=
  appWith None []
    (SparkPodSpec.mk [] [] None [gpuToleration; spotToleration] None)
    emptyRole.

Definition sampleOwner : OwnerReference.t :=
  OwnerReference.mk "sparkoperator.k8s.io/v1beta1" "SparkApplication"
    "spark-pi-app" "uid-app" (Some true).

Definition myConfigOps : list patchOperation :=
  [mkOp "add" "/metadata/ownerReferences" (VOwnerReferences [sampleOwner]);
   mkOp "add" "/spec/volumes"
     (VVolumes
        [Volume.mk "spark-configmap-volume"
           (VolumeSource.mk None None (Some (ConfigMapVolumeSource.mk "my-config")))]);
   mkOp "add" "/spec/containers/0/volumeMounts"
     (VVolumeMounts [VolumeMount.mk "spark-configmap-volume" true "/etc/spark/conf" ""]);
   mkOp "add" "/spec/containers/0/env"
     (VEnvVars [EnvVar.mk "SPARK_CONF_DIR" "/etc/spark/conf"])].

Definition configMapsOps : list patchOperation :=
  [mkOp "add" "/spec/volumes/-"
     (VVolume
        (Volume.mk "cm1-vol"
           (VolumeSource.mk None None (Some (ConfigMapVolumeSource.mk "cm1")))));
   mkOp "add" "/spec/containers/0/volumeMounts/-"
     (VVolumeMount (VolumeMount.mk "cm1-vol" true "/etc/cm1" ""));
   mkOp "add" "/spec/volumes/-"
     (VVolume
        (Volume.mk "configuration-for-the-nightly-aggregation-job-of-the-reporting-"
           (VolumeSource.mk None None (Some (ConfigMapVolumeSource.mk longName)))));
   mkOp "add" "/spec/containers/0/volumeMounts/-"
     (VVolumeMount
        (VolumeMount.mk "configuration-for-the-nightly-aggregation-job-of-the-reporting-"
           true "/etc/long" ""))].

Definition mountOps : list patchOperation :=
  [mkOp "add" "/spec/volumes" (VVolumes [dataVolume]);
   mkOp "add" "/spec/containers/0/volumeMounts"
     (VVolumeMounts [VolumeMount.mk "data" false "/data" ""])].

Definition affinityOps : list patchOperation :=
  [mkOp "add" "/metadata/ownerReferences" (VOwnerReferences [sampleOwner]);
   mkOp "add" "/spec/affinity" (VAffinity (Affinity.mk None (Some "near-cache") None))].

(** A descriptor with a Hadoop config map only. *)
Definition hadoopApp : SparkApplication.t :=
  SparkApplication.mk (ObjectMeta.mk "spark-pi-app" "uid-app" ∅ [])
    (SparkApplicationSpec.mk None (Some "hadoop-site") [] emptyRole emptyRole).

Definition hadoopOps : list patchOperation :=
  [mkOp "add" "/spec/volumes/-"
     (VVolume
        (Volume.mk "hadoop-configmap-volume"
           (VolumeSource.mk None None (Some (ConfigMapVolumeSource.mk "hadoop-site")))));
   mkOp "add" "/spec/containers/0/volumeMounts/-"
     (VVolumeMount (VolumeMount.mk "hadoop-configmap-volume" true "/etc/hadoop/conf" ""));
   mkOp "add" "/spec/containers/0/env/-"
     (VEnvVar (EnvVar.mk "HADOOP_CONF_DIR" "/etc/hadoop/conf"))].

(** A second volume under the name ["data"], declared after the first. *)
Definition otherDataVolume : Volume.t :=
  Volume.mk "data" (VolumeSource.mk None (Some "Memory") None).

Definition twiceDeclaredApp : SparkApplication.t :=
  appWith None [dataVolume; otherDataVolume]
    (SparkPodSpec.mk [] [VolumeMount.mk "data" false "/data" ""] None [] None)
    emptyRole.

Definition twiceDeclaredOps : list patchOperation :=
  [mkOp "add" "/spec/volumes" (VVolumes [otherDataVolume]);
   mkOp "add" "/spec/containers/0/volumeMounts"
     (VVolumeMounts [VolumeMount.mk "data" false "/data" ""])].

(** ** Reasoning about computations *)

Lemma readonly_ret {A : Type} (a : A) : readonly (mret a).
Proof. intros pod. reflexivity. Qed.

Lemma readonly_getPod : readonly getPod.
Proof. intros pod. reflexivity. Qed.

Lemma readonly_panic {A : Type} (e : runtimeError) : readonly (panic (A:=A) e).
Proof. intros pod. reflexivity. Qed.

(** An assignment is not read-only: the notion tells computations apart. *)
Lemma setPod_exec (pod pod' : Pod.t) : exec (setPod pod') pod = pod'.
Proof. reflexivity. Qed.

Lemma readonly_bind {A B : Type} (m : M A) (f : A → M B) :
  readonly m → (∀ a, readonly (f a)) → readonly (m ≫= f).
Proof.
  intros Hm Hf pod. specialize (Hm pod).
  unfold exec, mbind, M_bind in *.
  destruct (m pod) as [s' [a|e]]; simpl in *; subst s'.
  - apply Hf.
  - reflexivity.
Qed.

Lemma readonly_index {A : Type} (l : list A) (i : nat) : readonly (index l i).
Proof.
  unfold index. destruct (l !! i); [apply readonly_ret | apply readonly_panic].
Qed.

Lemma readonly_forRange {A S : Type} (l : list A) (body : A → S → M S) (s : S) :
  (∀ x s, readonly (body x s)) → readonly (forRange l body s).
Proof.
  intros Hbody. revert s.
  induction l as [|x l IH]; intros s; simpl.
  - apply readonly_ret.
  - apply readonly_bind; [apply Hbody | apply IH].
Qed.

Lemma eval_ret {A : Type} (a : A) pod : eval (mret a) pod = Ok a.
Proof. reflexivity. Qed.

Lemma eval_getPod pod : eval getPod pod = Ok pod.
Proof. reflexivity. Qed.

Lemma eval_bind {A B : Type} (m : M A) (f : A → M B) pod :
  readonly m →
  eval (m ≫= f) pod =
    match eval m pod with
    | Ok a => eval (f a) pod
    | Panic e => Panic e
    end.
Proof.
  intros Hm. specialize (Hm pod).
  unfold eval, exec, mbind, M_bind in *.
  destruct (m pod) as [s' [a|e]]; simpl in *; subst s'; reflexivity.
Qed.

Lemma eval_index {A : Type} (l : list A) (i : nat) pod :
  eval (index l i) pod =
    match l !! i with
    | Some x => Ok x
    | None => Panic (IndexOutOfRange i (length l))
    end.
Proof. unfold index. destruct (l !! i); reflexivity. Qed.

Lemma eval_forRange {A S : Type} (l : list A) (body : A → S → M S) (s : S) pod :
  (∀ x s, readonly (body x s)) →
  eval (forRange l body s) pod = foldResult l (λ x s, eval (body x s) pod) s.
Proof.
  intros Hbody. revert s.
  induction l as [|x l IH]; intros s; simpl.
  - reflexivity.
  - rewrite eval_bind by apply Hbody.
    destruct (eval (body x s) pod); [apply IH | reflexivity].
Qed.

Create HintDb readonly.
#[global] Hint Resolve readonly_ret readonly_getPod readonly_panic readonly_index : readonly.

(** Walks a computation built from binds, branches and loops. *)
Ltac readonly_walk :=
  repeat (intros; cbv zeta;
    match goal with
    | |- readonly (_ ≫= _) => apply readonly_bind
    | |- readonly (forRange _ _ _) => apply readonly_forRange
    | |- readonly (if ?b then _ else _) => destruct b
    | |- readonly (match ?x with _ => _ end) => destruct x
    | |- readonly _ => solve [eauto with readonly]
    end).

Section PatchFacts.
Context `{!Util, !Config}.

Lemma readonly_addOwnerReference app : readonly (addOwnerReference app).
Proof. unfold addOwnerReference. readonly_walk. Qed.

Lemma readonly_addVolume v : readonly (addVolume v).
Proof. unfold addVolume. readonly_walk. Qed.

Lemma readonly_addVolumeMount m : readonly (addVolumeMount m).
Proof. unfold addVolumeMount. readonly_walk. Qed.

Lemma readonly_addEnvironmentVariable n v : readonly (addEnvironmentVariable n v).
Proof. unfold addEnvironmentVariable. readonly_walk. Qed.

Lemma readonly_addToleration t : readonly (addToleration t).
Proof. unfold addToleration. readonly_walk. Qed.

Lemma readonly_addConfigMapVolume n vn : readonly (addConfigMapVolume n vn).
Proof. apply readonly_addVolume. Qed.

Lemma readonly_addConfigMapVolumeMount vn p : readonly (addConfigMapVolumeMount vn p).
Proof. apply readonly_addVolumeMount. Qed.

#[local] Hint Resolve readonly_addOwnerReference readonly_addVolume readonly_addVolumeMount
  readonly_addEnvironmentVariable readonly_addToleration readonly_addConfigMapVolume
  readonly_addConfigMapVolumeMount : readonly.

Lemma readonly_addVolumes app : readonly (addVolumes app).
Proof. unfold addVolumes. readonly_walk. Qed.

Lemma readonly_addGeneralConfigMaps app : readonly (addGeneralConfigMaps app).
Proof. unfold addGeneralConfigMaps. readonly_walk. Qed.

Lemma readonly_addSparkConfigMap app : readonly (addSparkConfigMap app).
Proof. unfold addSparkConfigMap. readonly_walk. Qed.

Lemma readonly_addHadoopConfigMap app : readonly (addHadoopConfigMap app).
Proof. unfold addHadoopConfigMap. readonly_walk. Qed.

Lemma readonly_addTolerations app : readonly (addTolerations app).
Proof. unfold addTolerations. readonly_walk. Qed.

Lemma readonly_addAffinity app : readonly (addAffinity app).
Proof. unfold addAffinity. readonly_walk. Qed.

Lemma readonly_addSecurityContext app : readonly (addSecurityContext app).
Proof. unfold addSecurityContext. readonly_walk. Qed.

#[local] Hint Resolve readonly_addVolumes readonly_addGeneralConfigMaps readonly_addSparkConfigMap
  readonly_addHadoopConfigMap readonly_addTolerations readonly_addAffinity
  readonly_addSecurityContext : readonly.

Lemma readonly_patchSparkPod app : readonly (patchSparkPod app).
Proof. unfold patchSparkPod. readonly_walk. Qed.

#[local] Hint Resolve readonly_patchSparkPod : readonly.

(** *** The container scan *)

Lemma namedSpark_test c :
  String.eqb (Container.Name c) sparkDriverContainerName
  || String.eqb (Container.Name c) sparkExecutorContainerName = true
  ↔ namedSpark c.
Proof.
  unfold namedSpark. rewrite orb_true_iff, !String.eqb_eq. reflexivity.
Qed.

Lemma scanContainers_spec cs i0 :
  (∃ k c, scanContainers cs i0 = i0 + k ∧ cs !! k = Some c ∧ namedSpark c
          ∧ ∀ j c', j < k → cs !! j = Some c' → ¬ namedSpark c')
  ∨ (scanContainers cs i0 = i0 + length cs ∧ ∀ c, c ∈ cs → ¬ namedSpark c).
Proof.
  revert i0. induction cs as [|c cs IH]; intros i0; simpl.
  - right. split; [lia | intros c Hc; inversion Hc].
  - destruct (String.eqb (Container.Name c) sparkDriverContainerName
              || String.eqb (Container.Name c) sparkExecutorContainerName) eqn:Ht.
    + left. exists 0, c. apply namedSpark_test in Ht.
      repeat split; [lia | assumption | intros; lia].
    + assert (Hc : ¬ namedSpark c).
      { intros Hn. apply namedSpark_test in Hn. congruence. }
      destruct (IH (S i0)) as [(k & c0 & Hk & Hl & Hn & Hfirst) | [Hk Hnone]].
      * left. exists (S k), c0. repeat split; [lia | assumption | assumption |].
        intros [|j] c' Hj Hl'; simpl in Hl'.
        -- congruence.
        -- apply (Hfirst j); [lia | assumption].
      * right. split; [lia |].
        intros c' Hc'. apply elem_of_cons in Hc' as [->|Hc']; auto.
Qed.

(** The scan ends on the first driver or executor container ... *)
Lemma scanContainers_resolved pod i c :
  resolved pod i c → scanContainers (PodSpec.Containers (Pod.Spec pod)) 0 = i.
Proof.
  intros (Hl & Hn & Hfirst).
  destruct (scanContainers_spec (PodSpec.Containers (Pod.Spec pod)) 0)
    as [(k & c0 & Hk & Hl0 & Hn0 & Hfirst0) | [_ Hnone]].
  - rewrite Hk. simpl.
    destruct (Nat.lt_trichotomy k i) as [Hlt | [-> | Hgt]].
    + destruct (Hfirst k c0 Hlt Hl0 Hn0).
    + reflexivity.
    + destruct (Hfirst0 i c Hgt Hl Hn).
  - destruct (Hnone c); [eapply list_elem_of_lookup_2; eassumption | assumption].
Qed.

(** ... and past the last container when there is none. *)
Lemma scanContainers_none pod :
  (∀ c, c ∈ PodSpec.Containers (Pod.Spec pod) → ¬ namedSpark c) →
  scanContainers (PodSpec.Containers (Pod.Spec pod)) 0
  = length (PodSpec.Containers (Pod.Spec pod)).
Proof.
  intros Hnone.
  destruct (scanContainers_spec (PodSpec.Containers (Pod.Spec pod)) 0)
    as [(k & c0 & _ & Hl0 & Hn0 & _) | [Hk _]].
  - destruct (Hnone c0); [eapply list_elem_of_lookup_2; eassumption | assumption].
  - exact Hk.
Qed.

Lemma scanContainers_lookup pod c :
  PodSpec.Containers (Pod.Spec pod)
    !! scanContainers (PodSpec.Containers (Pod.Spec pod)) 0 = Some c →
  resolved pod (scanContainers (PodSpec.Containers (Pod.Spec pod)) 0) c.
Proof.
  intros Hl.
  destruct (scanContainers_spec (PodSpec.Containers (Pod.Spec pod)) 0)
    as [(k & c0 & Hk & Hl0 & Hn0 & Hfirst0) | [Hk _]].
  - rewrite Hk in *. simpl in *.
    assert (c0 = c) as -> by congruence.
    repeat split; assumption.
  - rewrite Hk in Hl. simpl in Hl.
    apply lookup_lt_Some in Hl. lia.
Qed.

(** *** What the single-element adders return *)

Lemma eval_addOwnerReference app pod :
  eval (addOwnerReference app) pod =
    Ok (if (length (ObjectMeta.OwnerReferences (Pod.ObjectMeta pod)) =? 0)%nat
        then mkOp "add" "/metadata/ownerReferences"
               (VOwnerReferences [GetOwnerReference app])
        else mkOp "add" "/metadata/ownerReferences/-"
               (VOwnerReference (GetOwnerReference app))).
Proof.
  unfold addOwnerReference. rewrite eval_bind, eval_getPod by apply readonly_getPod.
  cbv zeta. destruct (length _ =? 0)%nat; reflexivity.
Qed.

Lemma eval_addVolume v pod :
  eval (addVolume v) pod =
    Ok (if (length (PodSpec.Volumes (Pod.Spec pod)) =? 0)%nat
        then mkOp "add" "/spec/volumes" (VVolumes [v])
        else mkOp "add" "/spec/volumes/-" (VVolume v)).
Proof.
  unfold addVolume. rewrite eval_bind, eval_getPod by apply readonly_getPod.
  cbv zeta. destruct (length _ =? 0)%nat; reflexivity.
Qed.

Lemma eval_addToleration t pod :
  eval (addToleration t) pod =
    Ok (if (length (PodSpec.Tolerations (Pod.Spec pod)) =? 0)%nat
        then mkOp "add" "/spec/tolerations" (VTolerations [t])
        else mkOp "add" "/spec/tolerations/-" (VToleration t)).
Proof.
  unfold addToleration. rewrite eval_bind, eval_getPod by apply readonly_getPod.
  cbv zeta. destruct (length _ =? 0)%nat; reflexivity.
Qed.

Lemma eval_addVolumeMount m pod :
  eval (addVolumeMount m) pod =
    let cs := PodSpec.Containers (Pod.Spec pod) in
    let i := scanContainers cs 0 in
    let path := "/spec/containers/" +:+ (pretty i +:+ "/volumeMounts") in
    match cs !! i with
    | Some c =>
        Ok (if (length (Container.VolumeMounts c) =? 0)%nat
            then mkOp "add" path (VVolumeMounts [m])
            else mkOp "add" (path +:+ "/-") (VVolumeMount m))
    | None => Panic (IndexOutOfRange i (length cs))
    end.
Proof.
  unfold addVolumeMount. rewrite eval_bind, eval_getPod by apply readonly_getPod.
  cbv zeta. rewrite eval_bind, eval_index by apply readonly_index.
  destruct (_ !! _) as [c|]; [|reflexivity].
  destruct (length _ =? 0)%nat; reflexivity.
Qed.

Lemma eval_addEnvironmentVariable n v pod :
  eval (addEnvironmentVariable n v) pod =
    let cs := PodSpec.Containers (Pod.Spec pod) in
    let i := scanContainers cs 0 in
    let path := "/spec/containers/" +:+ (pretty i +:+ "/env") in
    match cs !! i with
    | Some c =>
        Ok (if (length (Container.Env c) =? 0)%nat
            then mkOp "add" path (VEnvVars [EnvVar.mk n v])
            else mkOp "add" (path +:+ "/-") (VEnvVar (EnvVar.mk n v)))
    | None => Panic (IndexOutOfRange i (length cs))
    end.
Proof.
  unfold addEnvironmentVariable. rewrite eval_bind, eval_getPod by apply readonly_getPod.
  cbv zeta. rewrite eval_bind, eval_index by apply readonly_index.
  destruct (_ !! _) as [c|]; [|reflexivity].
  destruct (length _ =? 0)%nat; reflexivity.
Qed.

(** *** Loops that append to a slice *)

Lemma foldResult_ext {A S : Type} (l : list A) (f g : A → S → result S) (s : S) :
  (∀ x s, f x s = g x s) → foldResult l f s = foldResult l g s.
Proof.
  intros Hfg. revert s.
  induction l as [|x l IH]; intros s; simpl; [reflexivity|].
  rewrite Hfg. destruct (g x s); [apply IH | reflexivity].
Qed.

Lemma foldResult_append {A B : Type} (l : list A) (g : A → result (list B))
    (acc : list B) :
  foldResult l
    (λ x s, match g x with Ok ys => Ok (s ++ ys) | Panic e => Panic e end) acc
  = match mapResult g l with
    | Ok groups => Ok (acc ++ concat groups)
    | Panic e => Panic e
    end.
Proof.
  revert acc. induction l as [|x l IH]; intros acc; simpl.
  - rewrite app_nil_r. reflexivity.
  - destruct (g x) as [ys|e]; [|reflexivity].
    rewrite IH. destruct (mapResult g l); [|reflexivity].
    simpl. rewrite app_assoc. reflexivity.
Qed.

Lemma foldResult_snoc {A B : Type} (f : A → B) (l : list A) (acc : list B) :
  foldResult l (λ x s, Ok (s ++ [f x])) acc = Ok (acc ++ map f l).
Proof.
  revert acc. induction l as [|x l IH]; intros acc; simpl.
  - rewrite app_nil_r. reflexivity.
  - rewrite IH, <- app_assoc. reflexivity.
Qed.

Lemma mapResult_Ok {A B : Type} (g : A → result B) (l : list A) (ys : list B) :
  mapResult g l = Ok ys ↔ Forall2 (λ x y, g x = Ok y) l ys.
Proof.
  revert ys. induction l as [|x l IH]; intros ys; simpl.
  - split.
    + intros [= <-]. constructor.
    + intros Hf. inversion Hf. reflexivity.
  - split.
    + destruct (g x) as [y|e] eqn:Hg; [|discriminate].
      destruct (mapResult g l) as [ys'|e] eqn:Hm; [|discriminate].
      intros [= <-]. constructor; [assumption | apply IH; reflexivity].
    + intros Hf. inversion Hf as [|? y ? ys' Hg Hrest]; subst.
      rewrite Hg. apply IH in Hrest. rewrite Hrest. reflexivity.
Qed.

(** *** What the list patchers return *)

Lemma eval_addVolumes app pod :
  eval (addVolumes app) pod =
    match mapResult (mountPair app pod) (roleVolumeMounts pod app) with
    | Ok groups => Ok (concat groups)
    | Panic e => Panic e
    end.
Proof.
  unfold addVolumes. rewrite eval_bind, eval_getPod by apply readonly_getPod.
  cbv zeta. rewrite eval_forRange by readonly_walk.
  fold (volumeMap app).
  replace (if IsDriverPod pod then _ else _) with (roleVolumeMounts pod app)
    by role_cases.
  rewrite <- (foldResult_append _ (mountPair app pod) []).
  apply foldResult_ext. intros m ops. unfold mountPair.
  destruct (volumeMap app !! VolumeMount.Name m) as [v|];
    [|rewrite app_nil_r; reflexivity].
  rewrite eval_bind by apply readonly_addVolume.
  rewrite eval_addVolume.
  rewrite eval_bind by apply readonly_addVolumeMount.
  destruct (eval (addVolumeMount m) pod); [|reflexivity].
  rewrite eval_ret, <- app_assoc. reflexivity.
Qed.

Lemma eval_addGeneralConfigMaps app pod :
  eval (addGeneralConfigMaps app) pod =
    match mapResult (configMapPair pod) (roleConfigMaps pod app) with
    | Ok groups => Ok (concat groups)
    | Panic e => Panic e
    end.
Proof.
  unfold addGeneralConfigMaps. rewrite eval_bind, eval_getPod by apply readonly_getPod.
  cbv zeta. rewrite eval_forRange by readonly_walk.
  replace (if IsDriverPod pod then _ else _) with (roleConfigMaps pod app)
    by role_cases.
  rewrite <- (foldResult_append _ (configMapPair pod) []).
  apply foldResult_ext. intros np ops. unfold configMapPair. cbv zeta.
  rewrite eval_bind by apply readonly_addConfigMapVolume.
  unfold addConfigMapVolume. rewrite !eval_addVolume.
  rewrite eval_bind by apply readonly_addConfigMapVolumeMount.
  destruct (eval (addConfigMapVolumeMount _ _) pod); [|reflexivity].
  rewrite eval_ret, <- app_assoc. reflexivity.
Qed.

Lemma eval_addTolerations app pod :
  eval (addTolerations app) pod =
    Ok (map
          (λ t, if (length (PodSpec.Tolerations (Pod.Spec pod)) =? 0)%nat
                then mkOp "add" "/spec/tolerations" (VTolerations [t])
                else mkOp "add" "/spec/tolerations/-" (VToleration t))
          (roleTolerations pod app)).
Proof.
  unfold addTolerations. rewrite eval_bind, eval_getPod by apply readonly_getPod.
  cbv zeta. rewrite eval_forRange by readonly_walk.
  replace (if IsDriverPod pod then _ else _) with (roleTolerations pod app)
    by role_cases.
  rewrite <- (app_nil_l (map _ _)), <- foldResult_snoc.
  apply foldResult_ext. intros t ops.
  rewrite eval_bind by apply readonly_addToleration.
  rewrite eval_addToleration. reflexivity.
Qed.

Lemma eval_addSparkConfigMap app pod :
  eval (addSparkConfigMap app) pod =
    match SparkApplicationSpec.SparkConfigMap (SparkApplication.Spec app) with
    | Some name =>
        configMapTriple pod name SparkConfigMapVolumeName DefaultSparkConfDir
          SparkConfDirEnvVar
    | None => Ok []
    end.
Proof.
  unfold addSparkConfigMap, configMapTriple. cbv zeta.
  destruct (SparkApplicationSpec.SparkConfigMap _) as [name|]; [|reflexivity].
  rewrite eval_bind by apply readonly_addConfigMapVolume.
  unfold addConfigMapVolume. rewrite !eval_addVolume.
  rewrite eval_bind by apply readonly_addConfigMapVolumeMount.
  destruct (eval (addConfigMapVolumeMount _ _) pod); [|reflexivity].
  rewrite eval_bind by apply readonly_addEnvironmentVariable.
  destruct (eval (addEnvironmentVariable _ _) pod); reflexivity.
Qed.

Lemma eval_addHadoopConfigMap app pod :
  eval (addHadoopConfigMap app) pod =
    match SparkApplicationSpec.HadoopConfigMap (SparkApplication.Spec app) with
    | Some name =>
        configMapTriple pod name HadoopConfigMapVolumeName DefaultHadoopConfDir
          HadoopConfDirEnvVar
    | None => Ok []
    end.
Proof.
  unfold addHadoopConfigMap, configMapTriple. cbv zeta.
  destruct (SparkApplicationSpec.HadoopConfigMap _) as [name|]; [|reflexivity].
  rewrite eval_bind by apply readonly_addConfigMapVolume.
  unfold addConfigMapVolume. rewrite !eval_addVolume.
  rewrite eval_bind by apply readonly_addConfigMapVolumeMount.
  destruct (eval (addConfigMapVolumeMount _ _) pod); [|reflexivity].
  rewrite eval_bind by apply readonly_addEnvironmentVariable.
  destruct (eval (addEnvironmentVariable _ _) pod); reflexivity.
Qed.

Lemma eval_addAffinity app pod :
  eval (addAffinity app) pod =
    Ok (mkOp "add" "/spec/affinity" ∘ VAffinity <$> roleAffinity pod app).
Proof.
  unfold addAffinity. rewrite eval_bind, eval_getPod by apply readonly_getPod.
  cbv zeta.
  replace (if IsDriverPod pod then _ else _) with (roleAffinity pod app)
    by role_cases.
  destruct (roleAffinity pod app); reflexivity.
Qed.

Lemma eval_addSecurityContext app pod :
  eval (addSecurityContext app) pod =
    Ok (mkOp "add" "/spec/securityContext" ∘ VPodSecurityContext
          <$> roleSecurityContext pod app).
Proof.
  unfold addSecurityContext. rewrite eval_bind, eval_getPod by apply readonly_getPod.
  cbv zeta.
  replace (if IsDriverPod pod then _ else _) with (roleSecurityContext pod app)
    by role_cases.
  destruct (roleSecurityContext pod app); reflexivity.
Qed.

(** *** The assembled sequence *)

Lemma eval_ownership_stage app pod :
  eval (if IsDriverPod pod
        then op ← addOwnerReference app; mret ([] ++ [op])
        else mret []) pod
  = ownershipPart app pod.
Proof.
  unfold ownershipPart. destruct (IsDriverPod pod); [|reflexivity].
  rewrite eval_bind by apply readonly_addOwnerReference.
  destruct (eval (addOwnerReference app) pod); reflexivity.
Qed.

Lemma eval_affinity_stage app pod (acc : list patchOperation) :
  eval (match PodSpec.Affinity (Pod.Spec pod) with
        | None =>
            op ← addAffinity app;
            match op with
            | Some op => mret (acc ++ [op])
            | None => mret acc
            end
        | Some _ => mret acc
        end) pod
  = match affinityPart app pod with
    | Ok aff => Ok (acc ++ aff)
    | Panic e => Panic e
    end.
Proof.
  unfold affinityPart.
  destruct (PodSpec.Affinity (Pod.Spec pod));
    [rewrite app_nil_r; reflexivity|].
  rewrite eval_bind by apply readonly_addAffinity.
  destruct (eval (addAffinity app) pod) as [[op|]|e]; simpl;
    rewrite ?app_nil_r; reflexivity.
Qed.

Lemma eval_securityContext_stage app pod (acc : list patchOperation) :
  eval (match PodSpec.SecurityContext (Pod.Spec pod) with
        | None =>
            op ← addSecurityContext app;
            match op with
            | Some op => mret (acc ++ [op])
            | None => mret acc
            end
        | Some _ => mret acc
        end) pod
  = match securityContextPart app pod with
    | Ok sec => Ok (acc ++ sec)
    | Panic e => Panic e
    end.
Proof.
  unfold securityContextPart.
  destruct (PodSpec.SecurityContext (Pod.Spec pod));
    [rewrite app_nil_r; reflexivity|].
  rewrite eval_bind by apply readonly_addSecurityContext.
  destruct (eval (addSecurityContext app) pod) as [[op|]|e]; simpl;
    rewrite ?app_nil_r; reflexivity.
Qed.

Lemma patchSparkPod_parts app pod ops :
  eval (patchSparkPod app) pod = Ok ops ↔
  ∃ own vols gcm scm hcm tols aff sec,
    ownershipPart app pod = Ok own
    ∧ eval (addVolumes app) pod = Ok vols
    ∧ eval (addGeneralConfigMaps app) pod = Ok gcm
    ∧ eval (addSparkConfigMap app) pod = Ok scm
    ∧ eval (addHadoopConfigMap app) pod = Ok hcm
    ∧ eval (addTolerations app) pod = Ok tols
    ∧ affinityPart app pod = Ok aff
    ∧ securityContextPart app pod = Ok sec
    ∧ ops = own ++ vols ++ gcm ++ scm ++ hcm ++ tols ++ aff ++ sec.
Proof.
  unfold patchSparkPod. cbv zeta.
  rewrite eval_bind, eval_getPod by apply readonly_getPod.
  rewrite eval_bind, eval_ownership_stage by readonly_walk.
  destruct (ownershipPart app pod) as [own|e];
    [|split; [discriminate | intros (? & ? & ? & ? & ? & ? & ? & ? & [=] & _)]].
  rewrite eval_bind by apply readonly_addVolumes.
  destruct (eval (addVolumes app) pod) as [vols|e];
    [|split; [discriminate | intros (? & ? & ? & ? & ? & ? & ? & ? & _ & [=] & _)]].
  rewrite eval_bind by apply readonly_addGeneralConfigMaps.
  destruct (eval (addGeneralConfigMaps app) pod) as [gcm|e];
    [|split; [discriminate | intros (? & ? & ? & ? & ? & ? & ? & ? & _ & _ & [=] & _)]].
  rewrite eval_bind by apply readonly_addSparkConfigMap.
  destruct (eval (addSparkConfigMap app) pod) as [scm|e];
    [|split; [discriminate
             | intros (? & ? & ? & ? & ? & ? & ? & ? & _ & _ & _ & [=] & _)]].
  rewrite eval_bind by apply readonly_addHadoopConfigMap.
  destruct (eval (addHadoopConfigMap app) pod) as [hcm|e];
    [|split; [discriminate
             | intros (? & ? & ? & ? & ? & ? & ? & ? & _ & _ & _ & _ & [=] & _)]].
  rewrite eval_bind by apply readonly_addTolerations.
  destruct (eval (addTolerations app) pod) as [tols|e];
    [|split; [discriminate
             | intros (? & ? & ? & ? & ? & ? & ? & ? & _ & _ & _ & _ & _ & [=] & _)]].
  rewrite eval_bind, eval_getPod by apply readonly_getPod.
  rewrite eval_bind, eval_affinity_stage by readonly_walk.
  destruct (affinityPart app pod) as [aff|e];
    [|split; [discriminate
             | intros (? & ? & ? & ? & ? & ? & ? & ? & _ & _ & _ & _ & _ & _ & [=] & _)]].
  rewrite eval_bind, eval_getPod by apply readonly_getPod.
  rewrite eval_bind, eval_securityContext_stage by readonly_walk.
  destruct (securityContextPart app pod) as [sec|e];
    [|split; [discriminate
             | intros (? & ? & ? & ? & ? & ? & ? & ? & _ & _ & _ & _ & _ & _ & _
                       & [=] & _)]].
  rewrite eval_ret, <- !app_assoc.
  split.
  - intros [= <-]. exists own, vols, gcm, scm, hcm, tols, aff, sec.
    repeat split; reflexivity.
  - intros (? & ? & ? & ? & ? & ? & ? & ? & [= <-] & [= <-] & [= <-] & [= <-]
            & [= <-] & [= <-] & [= <-] & [= <-] & ->).
    reflexivity.
Qed.

(** ** The array-append policy *)

Lemma appendPolicy_intro len field element array :
  appendPolicy len field element array
    (if (len =? 0)%nat
     then mkOp "add" field array
     else mkOp "add" (field +:+ "/-") element).
Proof.
  unfold appendPolicy.
  destruct (Nat.eqb_spec len 0) as [->|Hlen]; simpl;
    (split; [reflexivity | split; [intros; try lia| intros; try lia]]);
    split; reflexivity.
Qed.

(** C1. Every single-element add follows the array-append policy of the array
    it targets in the pod: owner references, pod volumes and tolerations
    always; a container's volume mounts and environment variables whenever the
    operation is emitted, in which case the container is the first one named
    as the driver or executor container and its index is in the path. *)
Theorem single_element_add_follows_policy (pod : Pod.t) :
  (∀ app, ∃ op,
     eval (addOwnerReference app) pod = Ok op
     ∧ appendPolicy (length (ObjectMeta.OwnerReferences (Pod.ObjectMeta pod)))
         "/metadata/ownerReferences"
         (VOwnerReference (GetOwnerReference app))
         (VOwnerReferences [GetOwnerReference app]) op)
  ∧ (∀ v, ∃ op,
       eval (addVolume v) pod = Ok op
       ∧ appendPolicy (length (PodSpec.Volumes (Pod.Spec pod)))
           "/spec/volumes" (VVolume v) (VVolumes [v]) op)
  ∧ (∀ t, ∃ op,
       eval (addToleration t) pod = Ok op
       ∧ appendPolicy (length (PodSpec.Tolerations (Pod.Spec pod)))
           "/spec/tolerations" (VToleration t) (VTolerations [t]) op)
  ∧ (∀ m op,
       eval (addVolumeMount m) pod = Ok op →
       ∃ i c,
         resolved pod i c
         ∧ appendPolicy (length (Container.VolumeMounts c))
             ("/spec/containers/" +:+ (pretty i +:+ "/volumeMounts"))
             (VVolumeMount m) (VVolumeMounts [m]) op)
  ∧ (∀ n v op,
       eval (addEnvironmentVariable n v) pod = Ok op →
       ∃ i c,
         resolved pod i c
         ∧ appendPolicy (length (Container.Env c))
             ("/spec/containers/" +:+ (pretty i +:+ "/env"))
             (VEnvVar (EnvVar.mk n v)) (VEnvVars [EnvVar.mk n v]) op).
Proof.
  repeat split.
  - intros app. eexists. split; [apply eval_addOwnerReference|].
    apply (appendPolicy_intro _ "/metadata/ownerReferences").
  - intros v. eexists. split; [apply eval_addVolume|].
    apply (appendPolicy_intro _ "/spec/volumes").
  - intros t. eexists. split; [apply eval_addToleration|].
    apply (appendPolicy_intro _ "/spec/tolerations").
  - intros m op. rewrite eval_addVolumeMount. cbv zeta.
    destruct (_ !! _) as [c|] eqn:Hl; [|discriminate].
    intros [= <-]. eexists _, c. split; [apply scanContainers_lookup, Hl|].
    apply appendPolicy_intro.
  - intros n v op. rewrite eval_addEnvironmentVariable. cbv zeta.
    destruct (_ !! _) as [c|] eqn:Hl; [|discriminate].
    intros [= <-]. eexists _, c. split; [apply scanContainers_lookup, Hl|].
    apply appendPolicy_intro.
Qed.

(** The container adders return whenever the pod has a driver or executor
    container. *)
Lemma addVolumeMount_returns pod i c m :
  resolved pod i c → ∃ op, eval (addVolumeMount m) pod = Ok op.
Proof.
  intros Hres. rewrite eval_addVolumeMount. cbv zeta.
  rewrite (scanContainers_resolved _ _ _ Hres).
  destruct Hres as (-> & _). eexists. reflexivity.
Qed.

Lemma addEnvironmentVariable_returns pod i c n v :
  resolved pod i c → ∃ op, eval (addEnvironmentVariable n v) pod = Ok op.
Proof.
  intros Hres. rewrite eval_addEnvironmentVariable. cbv zeta.
  rewrite (scanContainers_resolved _ _ _ Hres).
  destruct Hres as (-> & _). eexists. reflexivity.
Qed.

(** Without such a container both index past the end of the container slice. *)
Lemma addVolumeMount_panics pod m :
  (∀ c, c ∈ PodSpec.Containers (Pod.Spec pod) → ¬ namedSpark c) →
  eval (addVolumeMount m) pod =
    Panic (IndexOutOfRange (length (PodSpec.Containers (Pod.Spec pod)))
             (length (PodSpec.Containers (Pod.Spec pod)))).
Proof.
  intros Hnone. rewrite eval_addVolumeMount. cbv zeta.
  rewrite (scanContainers_none _ Hnone).
  rewrite (proj2 (lookup_ge_None _ _)) by lia. reflexivity.
Qed.

Lemma addEnvironmentVariable_panics pod n v :
  (∀ c, c ∈ PodSpec.Containers (Pod.Spec pod) → ¬ namedSpark c) →
  eval (addEnvironmentVariable n v) pod =
    Panic (IndexOutOfRange (length (PodSpec.Containers (Pod.Spec pod)))
             (length (PodSpec.Containers (Pod.Spec pod)))).
Proof.
  intros Hnone. rewrite eval_addEnvironmentVariable. cbv zeta.
  rewrite (scanContainers_none _ Hnone).
  rewrite (proj2 (lookup_ge_None _ _)) by lia. reflexivity.
Qed.

(** ** The pod document is only read *)

(** C9. Patch derivation leaves the pod document as it found it: the pod
    behind the pointer after the call, returned or panicked, is the pod
    before it, so each of its fields is unchanged. *)
Theorem patchSparkPod_leaves_pod_unchanged (app : SparkApplication.t) (pod : Pod.t) :
  exec (patchSparkPod app) pod = pod.
Proof. apply readonly_patchSparkPod. Qed.

(** ** Pods of neither role *)

(** C10. For a pod that is neither a driver nor an executor pod the
    role-selected patchers emit nothing, whatever the descriptor declares. *)
Theorem no_role_no_operations (app : SparkApplication.t) (pod : Pod.t) :
  IsDriverPod pod = false →
  IsExecutorPod pod = false →
  eval (addVolumes app) pod = Ok []
  ∧ eval (addGeneralConfigMaps app) pod = Ok []
  ∧ eval (addTolerations app) pod = Ok []
  ∧ eval (addAffinity app) pod = Ok None
  ∧ eval (addSecurityContext app) pod = Ok None.
Proof.
  intros Hd He.
  rewrite eval_addVolumes, eval_addGeneralConfigMaps, eval_addTolerations,
    eval_addAffinity, eval_addSecurityContext.
  unfold roleVolumeMounts, roleConfigMaps, roleTolerations, roleAffinity,
    roleSecurityContext, roleSpec.
  rewrite Hd, He. repeat split; reflexivity.
Qed.

(** ** The order of the sequence *)

(** C8. Patch derivation returns a sequence exactly when each patcher
    returns, and the sequence is then the concatenation of their outputs in
    the fixed order: ownership (driver pods only), volumes and mounts, general
    config maps, the Spark config map, the Hadoop config map, tolerations, the
    conditional affinity operation, the conditional security-context
    operation. *)
Theorem patchSparkPod_fixed_order (app : SparkApplication.t) (pod : Pod.t)
    (ops : list patchOperation) :
  eval (patchSparkPod app) pod = Ok ops ↔
  ∃ own vols gcm scm hcm tols aff sec,
    ownershipPart app pod = Ok own
    ∧ eval (addVolumes app) pod = Ok vols
    ∧ eval (addGeneralConfigMaps app) pod = Ok gcm
    ∧ eval (addSparkConfigMap app) pod = Ok scm
    ∧ eval (addHadoopConfigMap app) pod = Ok hcm
    ∧ eval (addTolerations app) pod = Ok tols
    ∧ affinityPart app pod = Ok aff
    ∧ securityContextPart app pod = Ok sec
    ∧ ops = own ++ vols ++ gcm ++ scm ++ hcm ++ tols ++ aff ++ sec.
Proof. apply patchSparkPod_parts. Qed.

(** ** Volumes and their mounts *)

Lemma volumeMap_fold_lookup (vols : list Volume.t) (m0 : gmap string Volume.t) k :
  match foldl (λ vm v, <[Volume.Name v := v]> vm) m0 vols !! k with
  | Some v => (v ∈ vols ∧ Volume.Name v = k) ∨ m0 !! k = Some v
  | None => (∀ v, v ∈ vols → Volume.Name v ≠ k) ∧ m0 !! k = None
  end.
Proof.
  revert m0. induction vols as [|v vols IH]; intros m0; simpl.
  - destruct (m0 !! k) eqn:Hk.
    + right. reflexivity.
    + split; [intros v Hv; inversion Hv | reflexivity].
  - specialize (IH (<[Volume.Name v := v]> m0)).
    destruct (foldl _ _ vols !! k) as [w|].
    + destruct IH as [[Hw Hn] | Hins].
      * left. split; [right; assumption | assumption].
      * rewrite lookup_insert in Hins. case_decide as Hname.
        -- left. injection Hins as ->. split; [left | assumption].
        -- right. assumption.
    + destruct IH as [Hnone Hins].
      rewrite lookup_insert in Hins. case_decide as Hname; [discriminate|].
      split; [|assumption].
      intros w Hw. apply elem_of_cons in Hw as [->|Hw]; auto.
Qed.

(** The table holds a volume under a name exactly when one is declared with it. *)
Lemma volumeMap_lookup app k :
  match volumeMap app !! k with
  | Some v =>
      v ∈ SparkApplicationSpec.Volumes (SparkApplication.Spec app)
      ∧ Volume.Name v = k
  | None =>
      ∀ v, v ∈ SparkApplicationSpec.Volumes (SparkApplication.Spec app) →
           Volume.Name v ≠ k
  end.
Proof.
  unfold volumeMap.
  pose proof (volumeMap_fold_lookup
    (SparkApplicationSpec.Volumes (SparkApplication.Spec app)) ∅ k) as Hl.
  destruct (foldl _ _ _ !! k) as [v|].
  - destruct Hl as [Hl | Hl]; [assumption | rewrite lookup_empty in Hl; discriminate].
  - apply Hl.
Qed.

Lemma mountPair_contribution app pod m group :
  mountPair app pod m = Ok group → mountContribution app pod m group.
Proof.
  unfold mountPair, mountContribution.
  pose proof (volumeMap_lookup app (VolumeMount.Name m)) as Hl.
  destruct (volumeMap app !! VolumeMount.Name m) as [v|].
  - destruct Hl as [Hin Hname].
    destruct (eval (addVolume v) pod) as [vop|] eqn:Hv; [|discriminate].
    destruct (eval (addVolumeMount m) pod) as [mop|] eqn:Hm; [|discriminate].
    intros [= <-]. right. exists v, vop, mop. repeat split; assumption.
  - intros [= <-]. left. split; [assumption | reflexivity].
Qed.

(** C5. The output of [addVolumes] is made of one group per mount point
    declared for the pod's role, in declaration order: an empty group for a
    mount point without a declared volume of its name, and an add-volume
    operation immediately followed by an add-mount operation for one with. *)
Theorem addVolumes_filter_join (app : SparkApplication.t) (pod : Pod.t)
    (ops : list patchOperation) :
  eval (addVolumes app) pod = Ok ops →
  ∃ groups : list (list patchOperation),
    ops = concat groups
    ∧ Forall2 (mountContribution app pod) (roleVolumeMounts pod app) groups.
Proof.
  rewrite eval_addVolumes.
  destruct (mapResult _ _) as [groups|] eqn:Hmap; [|discriminate].
  intros [= <-]. exists groups. split; [reflexivity|].
  apply mapResult_Ok in Hmap.
  eapply Forall2_impl; [exact Hmap|].
  intros m group. apply mountPair_contribution.
Qed.

(** ** Names of config-map volumes *)

Lemma string_length_app (s1 s2 : string) :
  String.length (s1 +:+ s2) = String.length s1 + String.length s2.
Proof. induction s1 as [|c s1 IH]; simpl; [reflexivity | rewrite IH; reflexivity]. Qed.

Lemma substring_0_prefix (n : nat) (s : string) :
  n ≤ String.length s →
  String.length (String.substring 0 n s) = n
  ∧ ∃ rest, s = String.substring 0 n s +:+ rest.
Proof.
  revert s. induction n as [|n IH]; intros s Hn.
  - destruct s; simpl; (split; [reflexivity | eexists; reflexivity]).
  - destruct s as [|c s]; simpl in *; [lia|].
    destruct (IH s) as [Hlen [rest Hrest]]; [lia|].
    split; [rewrite Hlen; reflexivity|].
    exists rest.
    change (String c s = String c (String.substring 0 n s +:+ rest)).
    congruence.
Qed.

Lemma configMapPair_contribution pod np group :
  configMapPair pod np = Ok group → configMapContribution pod np group.
Proof.
  unfold configMapPair, configMapContribution, addConfigMapVolume,
    addConfigMapVolumeMount. cbv zeta.
  set (volName := if (_ <? _)%nat then _ else _).
  destruct (eval (addVolume _) pod) as [vop|] eqn:Hv; [|discriminate].
  destruct (eval (addVolumeMount _) pod) as [mop|] eqn:Hm; [|discriminate].
  intros [= <-]. exists volName, vop, mop.
  split; [|repeat split; assumption].
  subst volName. unfold derivedVolumeName, maxNameLength.
  rewrite string_length_app. simpl String.length.
  destruct (Nat.ltb_spec 63 (String.length (NamePath.Name np) + 4)) as [Hlong|Hshort].
  - split; [intros _ | lia].
    apply substring_0_prefix. rewrite string_length_app. simpl. lia.
  - split; [lia | reflexivity].
Qed.

(** C6. Each general config reference of the pod's role contributes, in
    order, a volume operation and a mount operation that both carry the
    derived volume name: the name with ["-vol"] appended when that is at most
    63 long, and its first 63 characters otherwise. *)
Theorem general_config_volume_name (app : SparkApplication.t) (pod : Pod.t)
    (ops : list patchOperation) :
  eval (addGeneralConfigMaps app) pod = Ok ops →
  ∃ groups : list (list patchOperation),
    ops = concat groups
    ∧ Forall2 (configMapContribution pod) (roleConfigMaps pod app) groups.
Proof.
  rewrite eval_addGeneralConfigMaps.
  destruct (mapResult _ _) as [groups|] eqn:Hmap; [|discriminate].
  intros [= <-]. exists groups. split; [reflexivity|].
  apply mapResult_Ok in Hmap.
  eapply Forall2_impl; [exact Hmap|].
  intros np group. apply configMapPair_contribution.
Qed.

(** ** Which field an operation targets *)

Lemma filter_all {A : Type} (χ : A → bool) (l : list A) :
  Forall (λ x, χ x = true) l → List.filter χ l = l.
Proof.
  induction 1 as [|x l Hx _ IH]; simpl; [reflexivity|].
  rewrite Hx, IH. reflexivity.
Qed.

Lemma filter_nothing {A : Type} (χ : A → bool) (l : list A) :
  Forall (λ x, χ x = false) l → List.filter χ l = [].
Proof.
  induction 1 as [|x l Hx _ IH]; simpl; [reflexivity|].
  rewrite Hx, IH. reflexivity.
Qed.

Lemma addVolume_elementOp v pod op :
  eval (addVolume v) pod = Ok op → elementOp op.
Proof.
  rewrite eval_addVolume. intros [= <-].
  destruct (length _ =? 0); repeat split; reflexivity.
Qed.

Lemma addVolumeMount_elementOp m pod op :
  eval (addVolumeMount m) pod = Ok op → elementOp op.
Proof.
  rewrite eval_addVolumeMount. cbv zeta.
  destruct (_ !! _); [|discriminate]. intros [= <-].
  destruct (length _ =? 0); repeat split; reflexivity.
Qed.

Lemma addEnvironmentVariable_elementOp n v pod op :
  eval (addEnvironmentVariable n v) pod = Ok op → elementOp op.
Proof.
  rewrite eval_addEnvironmentVariable. cbv zeta.
  destruct (_ !! _); [|discriminate]. intros [= <-].
  destruct (length _ =? 0); repeat split; reflexivity.
Qed.

Lemma mapResult_Forall {A B : Type} (g : A → result B) (Q : B → Prop)
    (l : list A) (ys : list B) :
  (∀ x y, g x = Ok y → Q y) → mapResult g l = Ok ys → Forall Q ys.
Proof.
  intros Hg Hmap. apply mapResult_Ok in Hmap.
  induction Hmap as [|x y l ys Hxy _ IH]; constructor; eauto.
Qed.

Lemma addVolumes_elementOps app pod ops :
  eval (addVolumes app) pod = Ok ops → Forall elementOp ops.
Proof.
  rewrite eval_addVolumes.
  destruct (mapResult _ _) as [groups|] eqn:Hmap; [|discriminate].
  intros [= <-]. apply Forall_concat.
  eapply mapResult_Forall; [|exact Hmap].
  intros m group Hpair.
  destruct (mountPair_contribution _ _ _ _ Hpair)
    as [[_ ->] | (v & vop & mop & _ & _ & Hv & Hm & ->)].
  - constructor.
  - apply Forall_cons_2; [eapply addVolume_elementOp, Hv|].
    apply Forall_cons_2; [eapply addVolumeMount_elementOp, Hm | constructor].
Qed.

Lemma addGeneralConfigMaps_elementOps app pod ops :
  eval (addGeneralConfigMaps app) pod = Ok ops → Forall elementOp ops.
Proof.
  rewrite eval_addGeneralConfigMaps.
  destruct (mapResult _ _) as [groups|] eqn:Hmap; [|discriminate].
  intros [= <-]. apply Forall_concat.
  eapply mapResult_Forall; [|exact Hmap].
  intros np group Hpair.
  destruct (configMapPair_contribution _ _ _ Hpair)
    as (volName & vop & mop & _ & Hv & Hm & ->).
  apply Forall_cons_2; [eapply addVolume_elementOp, Hv|].
  apply Forall_cons_2; [eapply addVolumeMount_elementOp, Hm | constructor].
Qed.

Lemma configMapTriple_elementOps pod name volName dir envName ops :
  configMapTriple pod name volName dir envName = Ok ops → Forall elementOp ops.
Proof.
  unfold configMapTriple, addConfigMapVolume, addConfigMapVolumeMount.
  destruct (eval (addVolume _) pod) as [vop|] eqn:Hv; [|discriminate].
  destruct (eval (addVolumeMount _) pod) as [mop|] eqn:Hm; [|discriminate].
  destruct (eval (addEnvironmentVariable _ _) pod) as [eop|] eqn:He; [|discriminate].
  intros [= <-].
  apply Forall_cons_2; [eapply addVolume_elementOp, Hv|].
  apply Forall_cons_2; [eapply addVolumeMount_elementOp, Hm|].
  apply Forall_cons_2; [eapply addEnvironmentVariable_elementOp, He | constructor].
Qed.

Lemma addSparkConfigMap_elementOps app pod ops :
  eval (addSparkConfigMap app) pod = Ok ops → Forall elementOp ops.
Proof.
  rewrite eval_addSparkConfigMap.
  destruct (SparkApplicationSpec.SparkConfigMap _).
  - apply configMapTriple_elementOps.
  - intros [= <-]. constructor.
Qed.

Lemma addHadoopConfigMap_elementOps app pod ops :
  eval (addHadoopConfigMap app) pod = Ok ops → Forall elementOp ops.
Proof.
  rewrite eval_addHadoopConfigMap.
  destruct (SparkApplicationSpec.HadoopConfigMap _).
  - apply configMapTriple_elementOps.
  - intros [= <-]. constructor.
Qed.

Lemma addTolerations_elementOps app pod ops :
  eval (addTolerations app) pod = Ok ops → Forall elementOp ops.
Proof.
  rewrite eval_addTolerations. intros [= <-].
  apply Forall_map, Forall_forall. intros t _.
  destruct (length _ =? 0); repeat split; reflexivity.
Qed.

Lemma ownershipPart_eq app pod :
  ownershipPart app pod =
    Ok (if IsDriverPod pod
        then [if length (ObjectMeta.OwnerReferences (Pod.ObjectMeta pod)) =? 0
              then mkOp "add" "/metadata/ownerReferences"
                     (VOwnerReferences [GetOwnerReference app])
              else mkOp "add" "/metadata/ownerReferences/-"
                     (VOwnerReference (GetOwnerReference app))]
        else []).
Proof.
  unfold ownershipPart. rewrite eval_addOwnerReference.
  destruct (IsDriverPod pod); reflexivity.
Qed.

Lemma affinityPart_eq app pod :
  affinityPart app pod =
    Ok (match PodSpec.Affinity (Pod.Spec pod), roleAffinity pod app with
        | None, Some a => [mkOp "add" "/spec/affinity" (VAffinity a)]
        | _, _ => []
        end).
Proof.
  unfold affinityPart. rewrite eval_addAffinity.
  destruct (PodSpec.Affinity _), (roleAffinity pod app); reflexivity.
Qed.

Lemma securityContextPart_eq app pod :
  securityContextPart app pod =
    Ok (match PodSpec.SecurityContext (Pod.Spec pod), roleSecurityContext pod app with
        | None, Some s => [mkOp "add" "/spec/securityContext" (VPodSecurityContext s)]
        | _, _ => []
        end).
Proof.
  unfold securityContextPart. rewrite eval_addSecurityContext.
  destruct (PodSpec.SecurityContext _), (roleSecurityContext pod app); reflexivity.
Qed.

(** The output with its first and its last two parts made explicit, and the
    five parts in between gathered in [middle]. *)
Lemma patchSparkPod_shape app pod ops :
  eval (patchSparkPod app) pod = Ok ops →
  ∃ own middle aff sec,
    ops = own ++ middle ++ aff ++ sec
    ∧ ownershipPart app pod = Ok own
    ∧ Forall elementOp middle
    ∧ affinityPart app pod = Ok aff
    ∧ securityContextPart app pod = Ok sec.
Proof.
  intros Hops. apply patchSparkPod_parts in Hops
    as (own & vols & gcm & scm & hcm & tols & aff & sec
        & Hown & Hvols & Hgcm & Hscm & Hhcm & Htols & Haff & Hsec & ->).
  exists own, (vols ++ gcm ++ scm ++ hcm ++ tols), aff, sec.
  repeat split; try assumption.
  - rewrite <- !app_assoc. reflexivity.
  - rewrite !Forall_app.
    eauto 10 using addVolumes_elementOps, addGeneralConfigMaps_elementOps,
      addSparkConfigMap_elementOps, addHadoopConfigMap_elementOps,
      addTolerations_elementOps.
Qed.

Lemma patchSparkPod_filters app pod ops :
  eval (patchSparkPod app) pod = Ok ops →
  List.filter ownerReferenceOp ops =
    (if IsDriverPod pod
     then [if length (ObjectMeta.OwnerReferences (Pod.ObjectMeta pod)) =? 0
           then mkOp "add" "/metadata/ownerReferences"
                  (VOwnerReferences [GetOwnerReference app])
           else mkOp "add" "/metadata/ownerReferences/-"
                  (VOwnerReference (GetOwnerReference app))]
     else [])
  ∧ List.filter affinityOp ops =
      match PodSpec.Affinity (Pod.Spec pod), roleAffinity pod app with
      | None, Some a => [mkOp "add" "/spec/affinity" (VAffinity a)]
      | _, _ => []
      end
  ∧ List.filter securityContextOp ops =
      match PodSpec.SecurityContext (Pod.Spec pod), roleSecurityContext pod app with
      | None, Some s => [mkOp "add" "/spec/securityContext" (VPodSecurityContext s)]
      | _, _ => []
      end.
Proof.
  intros Hops. apply patchSparkPod_shape in Hops
    as (own & middle & aff & sec & -> & Hown & Hmiddle & Haff & Hsec).
  rewrite ownershipPart_eq in Hown. injection Hown as <-.
  rewrite affinityPart_eq in Haff. injection Haff as <-.
  rewrite securityContextPart_eq in Hsec. injection Hsec as <-.
  rewrite !List.filter_app.
  rewrite (filter_nothing ownerReferenceOp middle),
    (filter_nothing affinityOp middle), (filter_nothing securityContextOp middle)
    by (eapply Forall_impl; [exact Hmiddle | intros op (? & ? & ?); assumption]).
  repeat split;
    (destruct (IsDriverPod pod);
       [destruct (length (ObjectMeta.OwnerReferences (Pod.ObjectMeta pod)) =? 0)|]);
    destruct (PodSpec.Affinity _), (roleAffinity pod app),
      (PodSpec.SecurityContext _), (roleSecurityContext pod app); reflexivity.
Qed.

Lemma filter_nonempty {A : Type} (χ : A → bool) (l : list A) :
  (∃ x, x ∈ l ∧ χ x = true) ↔ List.filter χ l ≠ [].
Proof.
  split.
  - intros (x & Hx & Hχ) Hnil.
    assert (Hin : In x (List.filter χ l))
      by (apply List.filter_In; split; [apply list_elem_of_In, Hx | exact Hχ]).
    rewrite Hnil in Hin. destruct Hin.
  - intros Hne. destruct (List.filter χ l) as [|x l'] eqn:Hf; [congruence|].
    assert (Hin : In x (List.filter χ l)) by (rewrite Hf; left; reflexivity).
    apply List.filter_In in Hin as [Hin Hχ].
    exists x. split; [apply list_elem_of_In, Hin | exact Hχ].
Qed.

(** ** Ownership *)

(** C3. The output of patch derivation contains an operation on the owner
    references exactly when the pod is a driver pod. *)
Theorem ownership_iff_driver (app : SparkApplication.t) (pod : Pod.t)
    (ops : list patchOperation) :
  eval (patchSparkPod app) pod = Ok ops →
  (∃ op, op ∈ ops ∧ ownerReferenceOp op = true) ↔ IsDriverPod pod = true.
Proof.
  intros Hops. apply patchSparkPod_filters in Hops as (Hown & _ & _).
  rewrite filter_nonempty, Hown.
  destruct (IsDriverPod pod); split; congruence.
Qed.

(** ** Affinity and security context *)

(** C4, as the code has it.  The output holds an operation on the affinity
    exactly when the pod has no affinity and the descriptor declares one for
    the pod's role; it is then the only one and carries the declared value.
    When the pod has an affinity already, there is none, whatever the
    descriptor declares.  The same holds of the security context. *)
Theorem affinity_and_security_context_when_absent_and_declared
    (app : SparkApplication.t) (pod : Pod.t) (ops : list patchOperation) :
  eval (patchSparkPod app) pod = Ok ops →
  List.filter affinityOp ops =
    match PodSpec.Affinity (Pod.Spec pod), roleAffinity pod app with
    | None, Some a => [mkOp "add" "/spec/affinity" (VAffinity a)]
    | _, _ => []
    end
  ∧ List.filter securityContextOp ops =
      match PodSpec.SecurityContext (Pod.Spec pod), roleSecurityContext pod app with
      | None, Some s => [mkOp "add" "/spec/securityContext" (VPodSecurityContext s)]
      | _, _ => []
      end.
Proof.
  intros Hops. apply patchSparkPod_filters in Hops as (_ & Haff & Hsec).
  split; assumption.
Qed.

(** ** When patch derivation returns *)

Lemma mapResult_returns {A B : Type} (g : A → result B) (l : list A) :
  (∀ x, ∃ y, g x = Ok y) → ∃ ys, mapResult g l = Ok ys.
Proof.
  intros Hg. induction l as [|x l [ys IH]]; simpl.
  - eexists. reflexivity.
  - destruct (Hg x) as [y ->]. rewrite IH. eexists. reflexivity.
Qed.

Lemma configMapTriple_returns pod i c name volName dir envName :
  resolved pod i c → ∃ ops, configMapTriple pod name volName dir envName = Ok ops.
Proof.
  intros Hres. unfold configMapTriple, addConfigMapVolume, addConfigMapVolumeMount.
  rewrite eval_addVolume.
  destruct (addVolumeMount_returns pod i c
              (VolumeMount.mk volName true dir "") Hres) as [mop ->].
  destruct (addEnvironmentVariable_returns pod i c envName dir Hres) as [eop ->].
  eexists. reflexivity.
Qed.

(** A pod with a driver or executor container always gets its sequence of
    operations: nothing in patch derivation panics. *)
Lemma patchSparkPod_returns app pod i c :
  resolved pod i c → ∃ ops, eval (patchSparkPod app) pod = Ok ops.
Proof.
  intros Hres.
  assert (∃ vols, eval (addVolumes app) pod = Ok vols) as [vols Hvols].
  { rewrite eval_addVolumes.
    destruct (mapResult_returns (mountPair app pod) (roleVolumeMounts pod app))
      as [groups ->]; [|eexists; reflexivity].
    intros m. unfold mountPair.
    destruct (volumeMap app !! VolumeMount.Name m); [|eexists; reflexivity].
    rewrite eval_addVolume.
    destruct (addVolumeMount_returns pod i c m Hres) as [mop ->].
    eexists. reflexivity. }
  assert (∃ gcm, eval (addGeneralConfigMaps app) pod = Ok gcm) as [gcm Hgcm].
  { rewrite eval_addGeneralConfigMaps.
    destruct (mapResult_returns (configMapPair pod) (roleConfigMaps pod app))
      as [groups ->]; [|eexists; reflexivity].
    intros np. unfold configMapPair, addConfigMapVolume, addConfigMapVolumeMount.
    cbv zeta. rewrite eval_addVolume.
    match goal with
    | |- context [eval (addVolumeMount ?m) pod] =>
        destruct (addVolumeMount_returns pod i c m Hres) as [mop ->]
    end.
    eexists. reflexivity. }
  assert (∃ scm, eval (addSparkConfigMap app) pod = Ok scm) as [scm Hscm].
  { rewrite eval_addSparkConfigMap.
    destruct (SparkApplicationSpec.SparkConfigMap _); [|eexists; reflexivity].
    eapply configMapTriple_returns, Hres. }
  assert (∃ hcm, eval (addHadoopConfigMap app) pod = Ok hcm) as [hcm Hhcm].
  { rewrite eval_addHadoopConfigMap.
    destruct (SparkApplicationSpec.HadoopConfigMap _); [|eexists; reflexivity].
    eapply configMapTriple_returns, Hres. }
  eexists. apply patchSparkPod_parts.
  eexists _, vols, gcm, scm, hcm, _, _, _.
  split; [apply ownershipPart_eq|].
  do 4 (split; [assumption|]).
  split; [apply eval_addTolerations|].
  split; [apply affinityPart_eq|].
  split; [apply securityContextPart_eq | reflexivity].
Qed.

(** With no toleration on the pod, every declared toleration is emitted as
    the creation of the array. *)
Lemma addTolerations_on_empty_array app pod :
  PodSpec.Tolerations (Pod.Spec pod) = [] →
  eval (addTolerations app) pod =
    Ok (map (λ t, mkOp "add" "/spec/tolerations" (VTolerations [t]))
          (roleTolerations pod app)).
Proof.
  intros Hempty. rewrite eval_addTolerations, Hempty. reflexivity.
Qed.

(** ** The sequence as a whole *)

(** Patch derivation runs its eight parts in order and stops at the first
    panic. *)
Lemma eval_patchSparkPod app pod :
  eval (patchSparkPod app) pod =
    bindResult (ownershipPart app pod) (λ own,
    bindResult (eval (addVolumes app) pod) (λ vols,
    bindResult (eval (addGeneralConfigMaps app) pod) (λ gcm,
    bindResult (eval (addSparkConfigMap app) pod) (λ scm,
    bindResult (eval (addHadoopConfigMap app) pod) (λ hcm,
    bindResult (eval (addTolerations app) pod) (λ tols,
    bindResult (affinityPart app pod) (λ aff,
    bindResult (securityContextPart app pod) (λ sec,
      Ok (own ++ vols ++ gcm ++ scm ++ hcm ++ tols ++ aff ++ sec))))))))).
Proof.
  unfold patchSparkPod. cbv zeta.
  rewrite eval_bind, eval_getPod by apply readonly_getPod.
  rewrite eval_bind, eval_ownership_stage by readonly_walk.
  destruct (ownershipPart app pod) as [own|e]; [|reflexivity]. simpl.
  rewrite eval_bind by apply readonly_addVolumes.
  destruct (eval (addVolumes app) pod) as [vols|e]; [|reflexivity]. simpl.
  rewrite eval_bind by apply readonly_addGeneralConfigMaps.
  destruct (eval (addGeneralConfigMaps app) pod) as [gcm|e]; [|reflexivity]. simpl.
  rewrite eval_bind by apply readonly_addSparkConfigMap.
  destruct (eval (addSparkConfigMap app) pod) as [scm|e]; [|reflexivity]. simpl.
  rewrite eval_bind by apply readonly_addHadoopConfigMap.
  destruct (eval (addHadoopConfigMap app) pod) as [hcm|e]; [|reflexivity]. simpl.
  rewrite eval_bind by apply readonly_addTolerations.
  destruct (eval (addTolerations app) pod) as [tols|e]; [|reflexivity]. simpl.
  rewrite eval_bind, eval_getPod by apply readonly_getPod.
  rewrite eval_bind, eval_affinity_stage by readonly_walk.
  destruct (affinityPart app pod) as [aff|e]; [|reflexivity]. simpl.
  rewrite eval_bind, eval_getPod by apply readonly_getPod.
  rewrite eval_bind, eval_securityContext_stage by readonly_walk.
  destruct (securityContextPart app pod) as [sec|e]; [|reflexivity]. simpl.
  rewrite eval_ret, <- !app_assoc. reflexivity.
Qed.

(** *** Matching a mount point against the declared volumes *)

Lemma matched_volumeMap app m :
  matched app m = true ↔ is_Some (volumeMap app !! VolumeMount.Name m).
Proof.
  unfold matched. rewrite existsb_exists.
  pose proof (volumeMap_lookup app (VolumeMount.Name m)) as Hl.
  destruct (volumeMap app !! VolumeMount.Name m) as [v|].
  - destruct Hl as [Hin Hname]. split; [eauto|]. intros _.
    exists v. split; [apply list_elem_of_In, Hin | apply String.eqb_eq, Hname].
  - split; [|intros [? [=]]].
    intros (v & Hin & Hname). apply String.eqb_eq in Hname.
    destruct (Hl v); [apply list_elem_of_In, Hin | exact Hname].
Qed.

Lemma mountPair_unmatched app pod m :
  matched app m = false → mountPair app pod m = Ok [].
Proof.
  intros Hm. unfold mountPair.
  destruct (volumeMap app !! VolumeMount.Name m) eqn:Hl; [|reflexivity].
  assert (matched app m = true) by (apply matched_volumeMap; rewrite Hl; eauto).
  congruence.
Qed.

Lemma mountPair_matched app pod m :
  matched app m = true →
  mountPair app pod m =
    bindResult (eval (addVolumeMount m) pod) (λ mop,
      match volumeMap app !! VolumeMount.Name m with
      | Some v =>
          bindResult (eval (addVolume v) pod) (λ vop, Ok [vop; mop])
      | None => Ok []
      end).
Proof.
  intros Hm. apply matched_volumeMap in Hm as [v Hv]. unfold mountPair.
  rewrite Hv, eval_addVolume. simpl.
  destruct (eval (addVolumeMount m) pod); reflexivity.
Qed.

(** *** Pods without a driver or executor container *)

Lemma resolved_or_none pod :
  (∃ i c, resolved pod i c)
  ∨ (∀ c, c ∈ PodSpec.Containers (Pod.Spec pod) → ¬ namedSpark c).
Proof.
  destruct (scanContainers_spec (PodSpec.Containers (Pod.Spec pod)) 0)
    as [(k & c & _ & Hl & Hn & Hfirst) | [_ Hnone]].
  - left. exists k, c. repeat split; assumption.
  - right. exact Hnone.
Qed.

Lemma resolved_not_none pod i c :
  resolved pod i c →
  ¬ (∀ c, c ∈ PodSpec.Containers (Pod.Spec pod) → ¬ namedSpark c).
Proof.
  intros (Hl & Hn & _) Hnone.
  apply (Hnone c); [eapply list_elem_of_lookup_2, Hl | exact Hn].
Qed.

Lemma mapResult_first_panic {A B : Type} (g : A → result (list B)) (t : A → bool)
    (e : runtimeError) (l : list A) :
  (∀ x, g x = if t x then Panic e else Ok []) →
  mapResult g l = if existsb t l then Panic e else Ok (map (λ _, []) l).
Proof.
  intros Hg. induction l as [|x l IH]; simpl; [reflexivity|].
  rewrite Hg. destruct (t x); simpl; [reflexivity|].
  rewrite IH. destruct (existsb t l); reflexivity.
Qed.

Lemma concat_map_nil {A B : Type} (l : list A) :
  concat (map (λ _, @nil B) l) = [].
Proof. induction l as [|x l IH]; simpl; [reflexivity | exact IH]. Qed.

Section NoContainer.
Variable pod : Pod.t.
Hypothesis Hnone : ∀ c, c ∈ PodSpec.Containers (Pod.Spec pod) → ¬ namedSpark c.

Let outOfRange : runtimeError :=
  IndexOutOfRange (length (PodSpec.Containers (Pod.Spec pod)))
    (length (PodSpec.Containers (Pod.Spec pod))).

Lemma eval_addVolumes_none app :
  eval (addVolumes app) pod =
    if existsb (matched app) (roleVolumeMounts pod app)
    then Panic outOfRange
    else Ok [].
Proof.
  rewrite eval_addVolumes.
  rewrite (mapResult_first_panic _ (matched app) outOfRange).
  - destruct (existsb _ _); [reflexivity|]. rewrite concat_map_nil. reflexivity.
  - intros m. destruct (matched app m) eqn:Hm.
    + rewrite (mountPair_matched _ _ _ Hm), (addVolumeMount_panics _ _ Hnone).
      reflexivity.
    + apply mountPair_unmatched, Hm.
Qed.

Lemma eval_addGeneralConfigMaps_none app :
  eval (addGeneralConfigMaps app) pod =
    match roleConfigMaps pod app with
    | [] => Ok []
    | _ :: _ => Panic outOfRange
    end.
Proof.
  rewrite eval_addGeneralConfigMaps.
  destruct (roleConfigMaps pod app) as [|np l]; [reflexivity|]. simpl.
  unfold configMapPair, addConfigMapVolume, addConfigMapVolumeMount. cbv zeta.
  rewrite eval_addVolume, (addVolumeMount_panics _ _ Hnone).
  reflexivity.
Qed.

Lemma configMapTriple_none name volName dir envName :
  configMapTriple pod name volName dir envName = Panic outOfRange.
Proof.
  unfold configMapTriple, addConfigMapVolume, addConfigMapVolumeMount.
  rewrite eval_addVolume, (addVolumeMount_panics _ _ Hnone).
  reflexivity.
Qed.

Lemma eval_patchSparkPod_none app :
  eval (patchSparkPod app) pod =
    if touchesContainer pod app
    then Panic outOfRange
    else bindResult (ownershipPart app pod) (λ own,
         bindResult (eval (addTolerations app) pod) (λ tols,
         bindResult (affinityPart app pod) (λ aff,
         bindResult (securityContextPart app pod) (λ sec,
           Ok (own ++ tols ++ aff ++ sec))))).
Proof.
  rewrite eval_patchSparkPod, ownershipPart_eq, eval_addVolumes_none,
    eval_addGeneralConfigMaps_none, eval_addSparkConfigMap, eval_addHadoopConfigMap.
  unfold touchesContainer.
  destruct (existsb _ _); [reflexivity|].
  destruct (roleConfigMaps pod app); [|reflexivity].
  destruct (SparkApplicationSpec.SparkConfigMap _);
    [simpl; rewrite configMapTriple_none; reflexivity|].
  destruct (SparkApplicationSpec.HadoopConfigMap _);
    [simpl; rewrite configMapTriple_none; reflexivity|].
  reflexivity.
Qed.

End NoContainer.

(** X1. Patch derivation panics exactly when no container of the pod is named
    as the driver or executor container and the descriptor asks for something
    that is attached to a container; the panic is then the index expression
    past the last container. *)
Theorem patchSparkPod_panics_exactly_when (app : SparkApplication.t) (pod : Pod.t)
    (e : runtimeError) :
  eval (patchSparkPod app) pod = Panic e ↔
  (∀ c, c ∈ PodSpec.Containers (Pod.Spec pod) → ¬ namedSpark c)
  ∧ touchesContainer pod app = true
  ∧ e = IndexOutOfRange (length (PodSpec.Containers (Pod.Spec pod)))
          (length (PodSpec.Containers (Pod.Spec pod))).
Proof.
  destruct (resolved_or_none pod) as [(i & c & Hres) | Hnone].
  - destruct (patchSparkPod_returns app pod i c Hres) as [ops ->].
    split; [discriminate|].
    intros (Hnone & _). destruct (resolved_not_none _ _ _ Hres Hnone).
  - rewrite (eval_patchSparkPod_none pod Hnone).
    rewrite ownershipPart_eq, eval_addTolerations, affinityPart_eq,
      securityContextPart_eq.
    destruct (touchesContainer pod app); simpl.
    + split; [intros [= <-]; auto | intros (_ & _ & ->); reflexivity].
    + split; [discriminate | intros (_ & [=] & _)].
Qed.

(** *** A property of every operation of the sequence *)

Lemma configMapTriple_inv pod name volName dir envName ops :
  configMapTriple pod name volName dir envName = Ok ops →
  ∃ vop mop eop,
    ops = [vop; mop; eop]
    ∧ eval (addVolume
              (Volume.mk volName
                 (VolumeSource.mk None None (Some (ConfigMapVolumeSource.mk name))))) pod
      = Ok vop
    ∧ eval (addVolumeMount (VolumeMount.mk volName true dir "")) pod = Ok mop
    ∧ eval (addEnvironmentVariable envName dir) pod = Ok eop.
Proof.
  unfold configMapTriple, addConfigMapVolume, addConfigMapVolumeMount.
  destruct (eval (addVolume _) pod) as [vop|] eqn:Hv; [|discriminate].
  destruct (eval (addVolumeMount _) pod) as [mop|] eqn:Hm; [|discriminate].
  destruct (eval (addEnvironmentVariable _ _) pod) as [eop|] eqn:He; [|discriminate].
  intros [= <-]. exists vop, mop, eop. repeat split; assumption.
Qed.

(** What holds of the result of every adder holds of every operation of the
    sequence. *)
Lemma patchSparkPod_Forall (P : patchOperation → Prop) app pod ops :
  (∀ op, eval (addOwnerReference app) pod = Ok op → P op) →
  (∀ v op, eval (addVolume v) pod = Ok op → P op) →
  (∀ m op, eval (addVolumeMount m) pod = Ok op → P op) →
  (∀ n v op, eval (addEnvironmentVariable n v) pod = Ok op → P op) →
  (∀ t op, eval (addToleration t) pod = Ok op → P op) →
  (∀ a, P (mkOp "add" "/spec/affinity" (VAffinity a))) →
  (∀ sc, P (mkOp "add" "/spec/securityContext" (VPodSecurityContext sc))) →
  eval (patchSparkPod app) pod = Ok ops → Forall P ops.
Proof.
  intros Hown Hvol Hmount Henv Htol Haff Hsec Hops.
  apply patchSparkPod_parts in Hops
    as (own & vols & gcm & scm & hcm & tols & aff & sec
        & Eown & Evols & Egcm & Escm & Ehcm & Etols & Eaff & Esec & ->).
  assert (Htriple : ∀ name volName dir envName l,
            configMapTriple pod name volName dir envName = Ok l → Forall P l).
  { intros name volName dir envName l Hl.
    apply configMapTriple_inv in Hl as (vop & mop & eop & -> & Hv & Hm & He).
    repeat apply Forall_cons_2; eauto. }
  rewrite !Forall_app. repeat split.
  - unfold ownershipPart in Eown. destruct (IsDriverPod pod).
    + destruct (eval (addOwnerReference app) pod) as [op|] eqn:Hop; [|discriminate].
      injection Eown as <-. apply Forall_cons_2; eauto.
    + injection Eown as <-. constructor.
  - rewrite eval_addVolumes in Evols.
    destruct (mapResult _ _) as [groups|] eqn:Hmap; [|discriminate].
    injection Evols as <-. apply Forall_concat.
    eapply mapResult_Forall; [|exact Hmap].
    intros m group Hpair.
    destruct (mountPair_contribution _ _ _ _ Hpair)
      as [[_ ->] | (v & vop & mop & _ & _ & Hv & Hm & ->)].
    + constructor.
    + repeat apply Forall_cons_2; eauto.
  - rewrite eval_addGeneralConfigMaps in Egcm.
    destruct (mapResult _ _) as [groups|] eqn:Hmap; [|discriminate].
    injection Egcm as <-. apply Forall_concat.
    eapply mapResult_Forall; [|exact Hmap].
    intros np group Hpair.
    destruct (configMapPair_contribution _ _ _ Hpair)
      as (volName & vop & mop & _ & Hv & Hm & ->).
    repeat apply Forall_cons_2; eauto.
  - rewrite eval_addSparkConfigMap in Escm.
    destruct (SparkApplicationSpec.SparkConfigMap _); [eauto|].
    injection Escm as <-. constructor.
  - rewrite eval_addHadoopConfigMap in Ehcm.
    destruct (SparkApplicationSpec.HadoopConfigMap _); [eauto|].
    injection Ehcm as <-. constructor.
  - rewrite eval_addTolerations in Etols. injection Etols as <-.
    apply Forall_map, Forall_forall. intros t _.
    apply (Htol t). apply eval_addToleration.
  - rewrite affinityPart_eq in Eaff. injection Eaff as <-.
    destruct (PodSpec.Affinity _), (roleAffinity pod app);
      repeat constructor; apply Haff.
  - rewrite securityContextPart_eq in Esec. injection Esec as <-.
    destruct (PodSpec.SecurityContext _), (roleSecurityContext pod app);
      repeat constructor; apply Hsec.
Qed.

Ltac known_path :=
  unfold knownPaths; cbv zeta;
  repeat first [apply list_elem_of_here | apply list_elem_of_further].

(** X2. Every operation patch derivation returns is an [add], and its path is
    one of the twelve known ones: no other field of the pod is addressed, and
    no container but the one the scan ends on. *)
Theorem patchSparkPod_adds_at_known_paths (app : SparkApplication.t) (pod : Pod.t)
    (ops : list patchOperation) :
  eval (patchSparkPod app) pod = Ok ops →
  Forall (λ op, Op op = "add" ∧ Path op ∈ knownPaths pod) ops.
Proof.
  apply patchSparkPod_Forall.
  - intros op. rewrite eval_addOwnerReference. intros [= <-].
    destruct (length _ =? 0); (split; [reflexivity | known_path]).
  - intros v op. rewrite eval_addVolume. intros [= <-].
    destruct (length _ =? 0); (split; [reflexivity | known_path]).
  - intros m op. rewrite eval_addVolumeMount. cbv zeta.
    destruct (_ !! _); [|discriminate]. intros [= <-].
    destruct (length _ =? 0); (split; [reflexivity | known_path]).
  - intros n v op. rewrite eval_addEnvironmentVariable. cbv zeta.
    destruct (_ !! _); [|discriminate]. intros [= <-].
    destruct (length _ =? 0); (split; [reflexivity | known_path]).
  - intros t op. rewrite eval_addToleration. intros [= <-].
    destruct (length _ =? 0); (split; [reflexivity | known_path]).
  - intros a. split; [reflexivity | known_path].
  - intros sc. split; [reflexivity | known_path].
Qed.

(** *** The number of operations *)

Lemma mountPair_length app pod m group :
  mountPair app pod m = Ok group →
  length group = if matched app m then 2 else 0.
Proof.
  intros Hpair. destruct (matched app m) eqn:Hm.
  - apply matched_volumeMap in Hm as [v Hv]. unfold mountPair in Hpair.
    rewrite Hv in Hpair.
    destruct (eval (addVolume v) pod); [|discriminate].
    destruct (eval (addVolumeMount m) pod); [|discriminate].
    injection Hpair as <-. reflexivity.
  - rewrite (mountPair_unmatched _ _ _ Hm) in Hpair. injection Hpair as <-.
    reflexivity.
Qed.

Lemma addVolumes_length app pod ops :
  eval (addVolumes app) pod = Ok ops →
  length ops = 2 * length (List.filter (matched app) (roleVolumeMounts pod app)).
Proof.
  rewrite eval_addVolumes.
  destruct (mapResult _ _) as [groups|] eqn:Hmap; [|discriminate].
  intros [= <-]. apply mapResult_Ok in Hmap.
  induction Hmap as [|m group l groups Hpair _ IH]; simpl; [reflexivity|].
  rewrite length_app, IH, (mountPair_length _ _ _ _ Hpair).
  destruct (matched app m); simpl; lia.
Qed.

Lemma addGeneralConfigMaps_length app pod ops :
  eval (addGeneralConfigMaps app) pod = Ok ops →
  length ops = 2 * length (roleConfigMaps pod app).
Proof.
  rewrite eval_addGeneralConfigMaps.
  destruct (mapResult _ _) as [groups|] eqn:Hmap; [|discriminate].
  intros [= <-]. apply mapResult_Ok in Hmap.
  induction Hmap as [|np group l groups Hpair _ IH]; simpl; [reflexivity|].
  apply configMapPair_contribution in Hpair as (? & ? & ? & _ & _ & _ & ->).
  rewrite length_app, IH. simpl. lia.
Qed.

(** X3. The sequence has one operation for the owner of a driver pod, two
    for each mount point of the role that names a declared volume, two for each
    general config map of the role, three for each built-in config map, one for
    each toleration of the role, and one each for a declared affinity and
    security context that the pod lacks. *)
Theorem patchSparkPod_operation_count (app : SparkApplication.t) (pod : Pod.t)
    (ops : list patchOperation) :
  eval (patchSparkPod app) pod = Ok ops →
  length ops = operationCount pod app.
Proof.
  intros Hops. apply patchSparkPod_parts in Hops
    as (own & vols & gcm & scm & hcm & tols & aff & sec
        & Eown & Evols & Egcm & Escm & Ehcm & Etols & Eaff & Esec & ->).
  rewrite !length_app. unfold operationCount.
  rewrite (addVolumes_length _ _ _ Evols), (addGeneralConfigMaps_length _ _ _ Egcm).
  rewrite ownershipPart_eq in Eown. injection Eown as <-.
  rewrite eval_addTolerations in Etols. injection Etols as <-.
  rewrite affinityPart_eq in Eaff. injection Eaff as <-.
  rewrite securityContextPart_eq in Esec. injection Esec as <-.
  rewrite length_map.
  assert (Hscm : length scm =
            match SparkApplicationSpec.SparkConfigMap (SparkApplication.Spec app) with
            | Some _ => 3
            | None => 0
            end).
  { rewrite eval_addSparkConfigMap in Escm.
    destruct (SparkApplicationSpec.SparkConfigMap _).
    - apply configMapTriple_inv in Escm as (? & ? & ? & -> & _). reflexivity.
    - injection Escm as <-. reflexivity. }
  assert (Hhcm : length hcm =
            match SparkApplicationSpec.HadoopConfigMap (SparkApplication.Spec app) with
            | Some _ => 3
            | None => 0
            end).
  { rewrite eval_addHadoopConfigMap in Ehcm.
    destruct (SparkApplicationSpec.HadoopConfigMap _).
    - apply configMapTriple_inv in Ehcm as (? & ? & ? & -> & _). reflexivity.
    - injection Ehcm as <-. reflexivity. }
  rewrite Hscm, Hhcm.
  destruct (IsDriverPod pod), (PodSpec.Affinity _), (roleAffinity pod app),
    (PodSpec.SecurityContext _), (roleSecurityContext pod app); simpl; lia.
Qed.

(** *** The built-in config maps *)

Lemma configMapTriple_builtin pod name volName dir envName ops :
  configMapTriple pod name volName dir envName = Ok ops →
  builtinConfigMapOps pod name volName dir envName ops.
Proof.
  intros Hops.
  apply configMapTriple_inv in Hops as (vop & mop & eop & -> & Hv & Hm & He).
  rewrite eval_addVolume in Hv. injection Hv as <-.
  rewrite eval_addVolumeMount in Hm. cbv zeta in Hm.
  rewrite eval_addEnvironmentVariable in He. cbv zeta in He.
  destruct (_ !! _) as [c|] eqn:Hl; [|discriminate].
  injection Hm as <-. injection He as <-.
  eexists _, c, _, _, _. split; [reflexivity|].
  split; [apply scanContainers_lookup, Hl|].
  split; [apply (appendPolicy_intro _ "/spec/volumes")|].
  split; apply appendPolicy_intro.
Qed.

(** X4. Without a Spark config map in the descriptor [addSparkConfigMap]
    returns no operation, for any pod.  With one, and whatever the role of the
    pod, what it returns is three operations: the volume
    [SparkConfigMapVolumeName] backed by that config map, the read-only mount
    of that volume at [DefaultSparkConfDir], and the variable
    [SparkConfDirEnvVar] set to the same directory, mount and variable on the
    first driver or executor container. *)
Theorem addSparkConfigMap_operations (app : SparkApplication.t) (pod : Pod.t)
    (ops : list patchOperation) :
  eval (addSparkConfigMap app) pod = Ok ops →
  match SparkApplicationSpec.SparkConfigMap (SparkApplication.Spec app) with
  | None => ops = []
  | Some name =>
      builtinConfigMapOps pod name SparkConfigMapVolumeName DefaultSparkConfDir
        SparkConfDirEnvVar ops
  end.
Proof.
  rewrite eval_addSparkConfigMap.
  destruct (SparkApplicationSpec.SparkConfigMap _).
  - apply configMapTriple_builtin.
  - intros [= <-]. reflexivity.
Qed.

(** X5. The same for the Hadoop config map, with
    [HadoopConfigMapVolumeName], [DefaultHadoopConfDir] and
    [HadoopConfDirEnvVar]. *)
Theorem addHadoopConfigMap_operations (app : SparkApplication.t) (pod : Pod.t)
    (ops : list patchOperation) :
  eval (addHadoopConfigMap app) pod = Ok ops →
  match SparkApplicationSpec.HadoopConfigMap (SparkApplication.Spec app) with
  | None => ops = []
  | Some name =>
      builtinConfigMapOps pod name HadoopConfigMapVolumeName DefaultHadoopConfDir
        HadoopConfDirEnvVar ops
  end.
Proof.
  rewrite eval_addHadoopConfigMap.
  destruct (SparkApplicationSpec.HadoopConfigMap _).
  - apply configMapTriple_builtin.
  - intros [= <-]. reflexivity.
Qed.

(** *** Volumes declared more than once *)

Lemma volumeMap_fold_last (vols : list Volume.t) (m0 : gmap string Volume.t) k v :
  foldl (λ vm v, <[Volume.Name v := v]> vm) m0 vols !! k = Some v →
  lastNamed vols k v
  ∨ (m0 !! k = Some v ∧ ∀ w, w ∈ vols → Volume.Name w ≠ k).
Proof.
  revert m0. induction vols as [|w vols IH]; intros m0; simpl.
  - intros Hk. right. split; [exact Hk | intros w Hw; inversion Hw].
  - intros Hk. apply IH in Hk as [(before & after & -> & Hname & Hafter) | [Hins Hrest]].
    + left. exists (w :: before), after. repeat split; assumption.
    + rewrite lookup_insert in Hins. case_decide as Hw.
      * injection Hins as ->. left. exists [], vols. repeat split; assumption.
      * right. split; [exact Hins|].
        intros w' Hw'. apply elem_of_cons in Hw' as [->|Hw']; auto.
Qed.

Lemma volumeMap_last app k v :
  volumeMap app !! k = Some v →
  lastNamed (SparkApplicationSpec.Volumes (SparkApplication.Spec app)) k v.
Proof.
  intros Hk. apply volumeMap_fold_last in Hk as [Hlast | [Hempty _]].
  - exact Hlast.
  - rewrite lookup_empty in Hempty. discriminate.
Qed.

(** X6. When several declared volumes carry the name of a mount point, the
    volume that [addVolumes] adds for it is the last of them in the
    descriptor's list. *)
Theorem addVolumes_last_declared_volume_wins (app : SparkApplication.t) (pod : Pod.t)
    (ops : list patchOperation) :
  eval (addVolumes app) pod = Ok ops →
  ∃ groups : list (list patchOperation),
    ops = concat groups
    ∧ Forall2
        (λ m group,
           matched app m = true →
           ∃ v vop mop,
             lastNamed (SparkApplicationSpec.Volumes (SparkApplication.Spec app))
               (VolumeMount.Name m) v
             ∧ eval (addVolume v) pod = Ok vop
             ∧ eval (addVolumeMount m) pod = Ok mop
             ∧ group = [vop; mop])
        (roleVolumeMounts pod app) groups.
Proof.
  rewrite eval_addVolumes.
  destruct (mapResult _ _) as [groups|] eqn:Hmap; [|discriminate].
  intros [= <-]. exists groups. split; [reflexivity|].
  apply mapResult_Ok in Hmap.
  eapply Forall2_impl; [exact Hmap|].
  intros m group Hpair Hm. simpl in Hpair.
  apply matched_volumeMap in Hm as [v Hv].
  unfold mountPair in Hpair. rewrite Hv in Hpair.
  destruct (eval (addVolume v) pod) as [vop|] eqn:Evop; [|discriminate].
  destruct (eval (addVolumeMount m) pod) as [mop|] eqn:Emop; [|discriminate].
  injection Hpair as <-.
  exists v, vop, mop. repeat split; try assumption.
  apply volumeMap_last, Hv.
Qed.

(** *** The length of config-map volume names *)

Lemma substring_0_app (n : nat) (s t : string) :
  n ≤ String.length s →
  String.substring 0 n (s +:+ t) = String.substring 0 n s.
Proof.
  revert s. induction n as [|n IH]; intros s Hn.
  - destruct s; [destruct t|]; reflexivity.
  - destruct s as [|c s]; simpl in Hn; [lia|].
    change (String c (String.substring 0 n (s +:+ t))
            = String c (String.substring 0 n s)).
    rewrite IH by lia. reflexivity.
Qed.

Lemma configMapPair_inv pod np group :
  configMapPair pod np = Ok group →
  ∃ volName vop mop,
    volName =
      (if maxNameLength <? String.length (NamePath.Name np +:+ "-vol")
       then String.substring 0 maxNameLength (NamePath.Name np +:+ "-vol")
       else NamePath.Name np +:+ "-vol")
    ∧ eval (addVolume
              (Volume.mk volName
                 (VolumeSource.mk None None
                    (Some (ConfigMapVolumeSource.mk (NamePath.Name np)))))) pod
      = Ok vop
    ∧ eval (addVolumeMount (VolumeMount.mk volName true (NamePath.Path np) "")) pod
      = Ok mop
    ∧ group = [vop; mop].
Proof.
  unfold configMapPair, addConfigMapVolume, addConfigMapVolumeMount. cbv zeta.
  destruct (eval (addVolume _) pod) as [vop|] eqn:Hv; [|discriminate].
  destruct (eval (addVolumeMount _) pod) as [mop|] eqn:Hm; [|discriminate].
  intros [= <-]. eexists _, vop, mop. split; [reflexivity|].
  repeat split; assumption.
Qed.

(** X7. The name of the volume and mount of a general config map is never
    longer than 63 bytes: its length is the smaller of 63 and the length of the
    config map's name plus four.  When the config map's name has 63 bytes or
    more, the volume name is the first 63 bytes of that name and nothing is
    left of the ["-vol"] suffix, so that config maps whose names share their
    first 63 bytes get the same volume name. *)
Theorem general_config_volume_name_length (app : SparkApplication.t) (pod : Pod.t)
    (ops : list patchOperation) :
  eval (addGeneralConfigMaps app) pod = Ok ops →
  ∃ groups : list (list patchOperation),
    ops = concat groups
    ∧ Forall2
        (λ np group,
           ∃ volName vop mop,
             group = [vop; mop]
             ∧ eval (addVolume
                       (Volume.mk volName
                          (VolumeSource.mk None None
                             (Some (ConfigMapVolumeSource.mk (NamePath.Name np)))))) pod
               = Ok vop
             ∧ eval (addVolumeMount
                       (VolumeMount.mk volName true (NamePath.Path np) "")) pod
               = Ok mop
             ∧ String.length volName = 63 `min` (String.length (NamePath.Name np) + 4)
             ∧ (63 ≤ String.length (NamePath.Name np) →
                volName = String.substring 0 63 (NamePath.Name np)))
        (roleConfigMaps pod app) groups.
Proof.
  rewrite eval_addGeneralConfigMaps.
  destruct (mapResult _ _) as [groups|] eqn:Hmap; [|discriminate].
  intros [= <-]. exists groups. split; [reflexivity|].
  apply mapResult_Ok in Hmap.
  eapply Forall2_impl; [exact Hmap|].
  intros np group Hpair. simpl in Hpair.
  apply configMapPair_inv in Hpair as (volName & vop & mop & Hname & Hv & Hm & ->).
  exists volName, vop, mop. do 3 (split; [first [reflexivity | assumption]|]).
  subst volName. unfold maxNameLength.
  rewrite string_length_app. simpl String.length.
  destruct (Nat.ltb_spec 63 (String.length (NamePath.Name np) + 4)) as [Hlong|Hshort].
  - split.
    + destruct (substring_0_prefix 63 (NamePath.Name np +:+ "-vol")) as [-> _];
        [rewrite string_length_app; simpl; lia | lia].
    + intros Hname. apply substring_0_app, Hname.
  - split; [rewrite string_length_app; simpl String.length; lia
           | intros; exfalso; lia].
Qed.

(** *** Tolerations *)

(** X11. [addTolerations] never panics, whatever the containers of the pod:
    it returns one operation for each toleration declared for the pod's role,
    in the order of the declaration, each following the array-append policy
    of the pod's own tolerations. *)
Theorem addTolerations_one_per_declared (app : SparkApplication.t) (pod : Pod.t) :
  ∃ ops,
    eval (addTolerations app) pod = Ok ops
    ∧ Forall2
        (λ t op,
           appendPolicy (length (PodSpec.Tolerations (Pod.Spec pod)))
             "/spec/tolerations" (VToleration t) (VTolerations [t]) op)
        (roleTolerations pod app) ops.
Proof.
  eexists. split; [apply eval_addTolerations|].
  apply Forall2_fmap_r, Forall_Forall2_diag, Forall_forall. intros t _.
  apply (appendPolicy_intro _ "/spec/tolerations").
Qed.

(** *** The part of the descriptor a pod depends on *)

Lemma roleSpec_withDriver app d pod :
  IsDriverPod pod = false → roleSpec pod (withDriver app d) = roleSpec pod app.
Proof. intros Hd. unfold roleSpec. rewrite Hd. reflexivity. Qed.

Lemma roleSpec_withExecutor app e pod :
  IsDriverPod pod = true → roleSpec pod (withExecutor app e) = roleSpec pod app.
Proof. intros Hd. unfold roleSpec. rewrite Hd. reflexivity. Qed.

(** The sequence is a function of the owner reference, of the part for the
    pod's role and of what the descriptor holds outside the two parts. *)
Lemma patchSparkPod_same_role app app' pod :
  (IsDriverPod pod = true → GetOwnerReference app' = GetOwnerReference app) →
  roleSpec pod app' = roleSpec pod app →
  SparkApplicationSpec.Volumes (SparkApplication.Spec app')
  = SparkApplicationSpec.Volumes (SparkApplication.Spec app) →
  SparkApplicationSpec.SparkConfigMap (SparkApplication.Spec app')
  = SparkApplicationSpec.SparkConfigMap (SparkApplication.Spec app) →
  SparkApplicationSpec.HadoopConfigMap (SparkApplication.Spec app')
  = SparkApplicationSpec.HadoopConfigMap (SparkApplication.Spec app) →
  eval (patchSparkPod app') pod = eval (patchSparkPod app) pod.
Proof.
  intros Howner Hrole Hvols Hscm Hhcm.
  rewrite !eval_patchSparkPod, !ownershipPart_eq, !eval_addVolumes,
    !eval_addGeneralConfigMaps, !eval_addSparkConfigMap, !eval_addHadoopConfigMap,
    !eval_addTolerations, !affinityPart_eq, !securityContextPart_eq.
  unfold roleVolumeMounts, roleConfigMaps, roleTolerations, roleAffinity,
    roleSecurityContext, mountPair, volumeMap.
  rewrite Hrole, Hvols, Hscm, Hhcm.
  destruct (IsDriverPod pod); [rewrite Howner by reflexivity|]; reflexivity.
Qed.

(** X8. What patch derivation does to a pod that is not a driver pod does
    not depend on the driver's part of the descriptor. *)
Theorem patchSparkPod_ignores_driver_part (app : SparkApplication.t)
    (d : SparkPodSpec.t) (pod : Pod.t) :
  IsDriverPod pod = false →
  eval (patchSparkPod (withDriver app d)) pod = eval (patchSparkPod app) pod.
Proof.
  intros Hd. apply patchSparkPod_same_role; try reflexivity.
  - rewrite Hd. discriminate.
  - apply roleSpec_withDriver, Hd.
Qed.

(** X9. What patch derivation does to a driver pod does not depend on the
    executor's part of the descriptor, provided the owner reference does not. *)
Theorem patchSparkPod_ignores_executor_part (app : SparkApplication.t)
    (e : SparkPodSpec.t) (pod : Pod.t) :
  IsDriverPod pod = true →
  GetOwnerReference (withExecutor app e) = GetOwnerReference app →
  eval (patchSparkPod (withExecutor app e)) pod = eval (patchSparkPod app) pod.
Proof.
  intros Hd Howner. apply patchSparkPod_same_role; try reflexivity.
  - intros _. exact Howner.
  - apply roleSpec_withExecutor, Hd.
Qed.

(** X10. A pod that is neither a driver nor an executor pod gets the
    operations of the two built-in config maps and nothing else: these two
    patchers do not look at the role. *)
Theorem patchSparkPod_without_role (app : SparkApplication.t) (pod : Pod.t) :
  IsDriverPod pod = false →
  IsExecutorPod pod = false →
  eval (patchSparkPod app) pod =
    bindResult (eval (addSparkConfigMap app) pod) (λ scm,
    bindResult (eval (addHadoopConfigMap app) pod) (λ hcm,
      Ok (scm ++ hcm))).
Proof.
  intros Hd He.
  rewrite eval_patchSparkPod, ownershipPart_eq, eval_addVolumes,
    eval_addGeneralConfigMaps, eval_addTolerations, affinityPart_eq,
    securityContextPart_eq.
  unfold roleVolumeMounts, roleConfigMaps, roleTolerations, roleAffinity,
    roleSecurityContext, roleSpec.
  rewrite Hd, He. simpl.
  destruct (eval (addSparkConfigMap app) pod) as [scm|]; [|reflexivity]. simpl.
  destruct (eval (addHadoopConfigMap app) pod) as [hcm|]; [|reflexivity]. simpl.
  destruct (PodSpec.Affinity _), (PodSpec.SecurityContext _);
    rewrite ?app_nil_r; reflexivity.
Qed.

(** *** When the container adders return *)

(** X12. [addVolumeMount] and [addEnvironmentVariable] return an operation
    exactly when some container of the pod is named as the driver or executor
    container, whatever they are asked to add. *)
Theorem container_adders_return_iff (pod : Pod.t) :
  (∀ m, (∃ op, eval (addVolumeMount m) pod = Ok op) ↔ ∃ i c, resolved pod i c)
  ∧ (∀ n v,
       (∃ op, eval (addEnvironmentVariable n v) pod = Ok op) ↔ ∃ i c, resolved pod i c).
Proof.
  split.
  - intros m. split.
    + intros [op Hop]. destruct (resolved_or_none pod) as [Hres | Hnone]; [exact Hres|].
      rewrite (addVolumeMount_panics _ _ Hnone) in Hop. discriminate.
    + intros (i & c & Hres). eapply addVolumeMount_returns, Hres.
  - intros n v. split.
    + intros [op Hop]. destruct (resolved_or_none pod) as [Hres | Hnone]; [exact Hres|].
      rewrite (addEnvironmentVariable_panics _ _ _ Hnone) in Hop. discriminate.
    + intros (i & c & Hres). eapply addEnvironmentVariable_returns, Hres.
Qed.

End PatchFacts.

(** ** The scenarios of the specification *)

#[local] Existing Instance sampleUtil.
#[local] Existing Instance sampleConfig.

Example scenario_driver_with_spark_config_map :
  eval (patchSparkPod myConfigApp) driverPod = Ok myConfigOps.
Proof. vm_compute. reflexivity. Qed.

Example scenario_executor_with_general_config_maps :
  String.length longName = 70
  ∧ eval (patchSparkPod configMapsApp) executorPod = Ok configMapsOps.
Proof. split; vm_compute; reflexivity. Qed.

Example scenario_pod_with_affinity :
  eval (patchSparkPod affinityApp) pinnedPod =
    Ok [mkOp "add" "/metadata/ownerReferences" (VOwnerReferences [sampleOwner])].
Proof. vm_compute. reflexivity. Qed.

(** ** The theorems at concrete inputs *)

Lemma ownership_iff_driver_witness :
  (∃ op, op ∈ myConfigOps ∧ ownerReferenceOp op = true)
  ↔ IsDriverPod driverPod = true.
Proof.
  apply (ownership_iff_driver myConfigApp driverPod myConfigOps).
  vm_compute. reflexivity.
Defined.

Lemma affinity_when_absent_and_declared_witness :
  List.filter affinityOp affinityOps =
    [mkOp "add" "/spec/affinity" (VAffinity (Affinity.mk None (Some "near-cache") None))]
  ∧ List.filter securityContextOp affinityOps = [].
Proof.
  generalize (affinity_and_security_context_when_absent_and_declared
                affinityApp driverPod affinityOps).
  vm_compute. intros W. apply W. reflexivity.
Defined.

(** C4 as the specification states it fails: this driver pod has neither an
    affinity nor a security context, the descriptor declares none for the
    driver, and the output holds no operation on either field. *)
Lemma affinity_absent_and_no_operation :
  PodSpec.Affinity (Pod.Spec driverPod) = None
  ∧ PodSpec.SecurityContext (Pod.Spec driverPod) = None
  ∧ eval (patchSparkPod myConfigApp) driverPod = Ok myConfigOps
  ∧ ¬ (∃ op, op ∈ myConfigOps ∧ affinityOp op = true)
  ∧ ¬ (∃ op, op ∈ myConfigOps ∧ securityContextOp op = true).
Proof.
  repeat split; try (vm_compute; reflexivity);
    rewrite filter_nonempty; intros Hne; apply Hne; vm_compute; reflexivity.
Qed.

Lemma addVolumes_filter_join_witness :
  ∃ groups : list (list patchOperation),
    mountOps = concat groups
    ∧ Forall2 (mountContribution mountApp driverPod)
        (roleVolumeMounts driverPod mountApp) groups.
Proof.
  apply (addVolumes_filter_join mountApp driverPod mountOps).
  vm_compute. reflexivity.
Defined.

Lemma general_config_volume_name_witness :
  ∃ groups : list (list patchOperation),
    configMapsOps = concat groups
    ∧ Forall2 (configMapContribution executorPod)
        (roleConfigMaps executorPod configMapsApp) groups.
Proof.
  apply (general_config_volume_name configMapsApp executorPod configMapsOps).
  vm_compute. reflexivity.
Defined.

Lemma no_role_no_operations_witness :
  eval (addVolumes richApp) unlabelledPod = Ok []
  ∧ eval (addGeneralConfigMaps richApp) unlabelledPod = Ok []
  ∧ eval (addTolerations richApp) unlabelledPod = Ok []
  ∧ eval (addAffinity richApp) unlabelledPod = Ok None
  ∧ eval (addSecurityContext richApp) unlabelledPod = Ok None.
Proof.
  apply (no_role_no_operations richApp unlabelledPod); vm_compute; reflexivity.
Defined.

(** ** Further properties at concrete inputs *)

Lemma patchSparkPod_adds_at_known_paths_witness :
  Forall (λ op, Op op = "add" ∧ Path op ∈ knownPaths driverPod) myConfigOps.
Proof.
  apply (patchSparkPod_adds_at_known_paths myConfigApp driverPod myConfigOps).
  vm_compute. reflexivity.
Defined.

Lemma patchSparkPod_operation_count_witness :
  length configMapsOps = operationCount executorPod configMapsApp.
Proof.
  apply (patchSparkPod_operation_count configMapsApp executorPod configMapsOps).
  vm_compute. reflexivity.
Defined.

Lemma addSparkConfigMap_operations_witness :
  builtinConfigMapOps driverPod "my-config" SparkConfigMapVolumeName
    DefaultSparkConfDir SparkConfDirEnvVar (drop 1 myConfigOps).
Proof.
  refine (addSparkConfigMap_operations myConfigApp driverPod (drop 1 myConfigOps) _).
  vm_compute. reflexivity.
Defined.

Lemma addHadoopConfigMap_operations_witness :
  builtinConfigMapOps executorPod "hadoop-site" HadoopConfigMapVolumeName
    DefaultHadoopConfDir HadoopConfDirEnvVar hadoopOps.
Proof.
  refine (addHadoopConfigMap_operations hadoopApp executorPod hadoopOps _).
  vm_compute. reflexivity.
Defined.

Lemma addVolumes_last_declared_volume_wins_witness :
  ∃ groups : list (list patchOperation),
    twiceDeclaredOps = concat groups
    ∧ Forall2
        (λ m group,
           matched twiceDeclaredApp m = true →
           ∃ v vop mop,
             lastNamed
               (SparkApplicationSpec.Volumes (SparkApplication.Spec twiceDeclaredApp))
               (VolumeMount.Name m) v
             ∧ eval (addVolume v) driverPod = Ok vop
             ∧ eval (addVolumeMount m) driverPod = Ok mop
             ∧ group = [vop; mop])
        (roleVolumeMounts driverPod twiceDeclaredApp) groups.
Proof.
  apply (addVolumes_last_declared_volume_wins twiceDeclaredApp driverPod twiceDeclaredOps).
  vm_compute. reflexivity.
Defined.

Lemma general_config_volume_name_length_witness :
  ∃ groups : list (list patchOperation),
    configMapsOps = concat groups
    ∧ Forall2
        (λ np group,
           ∃ volName vop mop,
             group = [vop; mop]
             ∧ eval (addVolume
                       (Volume.mk volName
                          (VolumeSource.mk None None
                             (Some (ConfigMapVolumeSource.mk (NamePath.Name np))))))
                 executorPod
               = Ok vop
             ∧ eval (addVolumeMount
                       (VolumeMount.mk volName true (NamePath.Path np) "")) executorPod
               = Ok mop
             ∧ String.length volName = 63 `min` (String.length (NamePath.Name np) + 4)
             ∧ (63 ≤ String.length (NamePath.Name np) →
                volName = String.substring 0 63 (NamePath.Name np)))
        (roleConfigMaps executorPod configMapsApp) groups.
Proof.
  apply (general_config_volume_name_length configMapsApp executorPod configMapsOps).
  vm_compute. reflexivity.
Defined.

Lemma patchSparkPod_ignores_driver_part_witness :
  eval (patchSparkPod (withDriver configMapsApp richRole)) executorPod
  = eval (patchSparkPod configMapsApp) executorPod.
Proof.
  apply (patchSparkPod_ignores_driver_part configMapsApp richRole executorPod).
  vm_compute. reflexivity.
Defined.

Lemma patchSparkPod_ignores_executor_part_witness :
  eval (patchSparkPod (withExecutor mountApp richRole)) driverPod
  = eval (patchSparkPod mountApp) driverPod.
Proof.
  apply (patchSparkPod_ignores_executor_part mountApp richRole driverPod);
    vm_compute; reflexivity.
Defined.

Lemma patchSparkPod_without_role_witness :
  eval (patchSparkPod richApp) unlabelledPod =
    bindResult (eval (addSparkConfigMap richApp) unlabelledPod) (λ scm,
    bindResult (eval (addHadoopConfigMap richApp) unlabelledPod) (λ hcm,
      Ok (scm ++ hcm))).
Proof.
  apply (patchSparkPod_without_role richApp unlabelledPod); vm_compute; reflexivity.
Defined.

(** ** Where the code falls short of the specification *)

(** C2. In a pod none of whose containers is named as the driver or executor
    container, the scan leaves the index at the length of the container slice
    and the index expression that follows panics: no [ContainerNotFound] error
    is returned, for a matched mount, a config-map mount or an environment
    variable alike. *)
Theorem no_spark_container_index_out_of_range :
  (∀ c, c ∈ PodSpec.Containers (Pod.Spec sidecarPod) → ¬ namedSpark c)
  ∧ scanContainers (PodSpec.Containers (Pod.Spec sidecarPod)) 0 = 1
  ∧ eval (addVolumes mountApp) sidecarPod = Panic (IndexOutOfRange 1 1)
  ∧ eval (addGeneralConfigMaps configMapsApp) sidecarPod = Panic (IndexOutOfRange 1 1)
  ∧ eval (addEnvironmentVariable "SPARK_CONF_DIR" "/etc/spark/conf") sidecarPod
    = Panic (IndexOutOfRange 1 1)
  ∧ eval (patchSparkPod myConfigApp) sidecarPod = Panic (IndexOutOfRange 1 1).
Proof.
  split; [|repeat split; vm_compute; reflexivity].
  intros c Hc. apply list_elem_of_singleton in Hc as ->.
  intros [Hn | Hn]; discriminate Hn.
Qed.

(** C7. With no toleration on the pod and two declared for its role, both
    operations create the array: the second is not an append, and applied
    after the first it replaces the array the first one created. *)
Theorem two_tolerations_both_create_the_array :
  PodSpec.Tolerations (Pod.Spec driverPod) = []
  ∧ eval (addTolerations tolerationsApp) driverPod =
      Ok [mkOp "add" "/spec/tolerations" (VTolerations [gpuToleration]);
          mkOp "add" "/spec/tolerations" (VTolerations [spotToleration])].
Proof. split; vm_compute; reflexivity. Qed.

